(** * climate-lab-static: the energy balance stepper and the chart window

    A shallow embedding of the two stateful classes the specification
    talks about:

    - [ClimateModel] (simulation module): the slider parameters, the
      integrated temperature, [updateParams] and [step];
    - [ClimateGraphs] (graphs module): the rolling window of the
      temperature chart maintained by [update].

    JavaScript numbers are IEEE 754 binary64 values, so they are embedded
    as Rocq's primitive [float]s, whose operations are the same binary64
    operations (one NaN, signed zeros, infinities, round to nearest even).
    [Math.max] and [Math.min] are fixed by ECMAScript and are defined
    here; [Math.log] and [Math.pow] are only "implementation-approximated"
    by ECMAScript, so the development is parametric in them and assumes
    nothing but the clauses ECMAScript does fix.

    Where a statement says how far a rounded result is from the exact
    one, the binary64 values are read as real numbers ([Exact.F2R]) and
    the error of each operation is bounded from the definition of
    rounding in [SpecFloat]. *)

From Stdlib Require Import ZArith Floats List Bool Lia.
From Stdlib Require String.
From Stdlib Require Reals Lra.
From ExtLib Require Import Structures.Monad Structures.MonadState.
From ExtLib Require Import Data.Monads.StateMonad.
Import ListNotations.
Import MonadNotation.

Set Warnings "-inexact-float".

Local Open Scope float_scope.
Local Open Scope monad_scope.

(* ===================================================================== *)
(** * JavaScript numbers and the [Math] object                            *)
(* ===================================================================== *)

Module JS.

(** The Number type. *)
Definition number := float.

(** [a === b] on numbers: IEEE equality ([NaN] differs from itself,
    [+0 === -0]). *)
Definition strict_eq (a b : number) : bool := a =? b.

(** [Number.isNaN]. *)
Definition isNaN (a : number) : bool := is_nan a.

Definition is_pos_zero (a : number) : bool := (a =? 0) && negb (get_sign a).
Definition is_neg_zero (a : number) : bool := (a =? 0) && get_sign a.

(** One round of the loop of [Math.max]: the running [highest] against
    the next argument [n] (neither is NaN at this point). *)
Definition max_step (highest n : number) : number :=
  if is_pos_zero n && is_neg_zero highest then 0
  else if highest <? n then n
  else highest.

(** One round of the loop of [Math.min]. *)
Definition min_step (lowest n : number) : number :=
  if is_neg_zero n && is_pos_zero lowest then (-0)
  else if n <? lowest then n
  else lowest.

(** [Math.max(...args)]: NaN as soon as one argument is NaN, else the
    largest argument, starting from [-Infinity]. *)
Definition Math_max_list (args : list number) : number :=
  if existsb isNaN args then nan
  else fold_left max_step args neg_infinity.

(** [Math.min(...args)]: NaN as soon as one argument is NaN, else the
    smallest argument, starting from [+Infinity]. *)
Definition Math_min_list (args : list number) : number :=
  if existsb isNaN args then nan
  else fold_left min_step args infinity.

Definition Math_max (a b : number) : number := Math_max_list [a; b].
Definition Math_min (a b : number) : number := Math_min_list [a; b].

(** The part of [Math] that ECMAScript leaves to the engine. *)
Class MathLib : Type := {
  Math_log : number -> number;
  Math_pow : number -> number -> number
}.

(** What ECMAScript does fix about [Math.log] and about
    [Math.pow(x, 4)], the only exponent the model uses.

    - [Math.log(1)] is [+0];
    - [Math.log(x)] is NaN when [x] is NaN or [x < -0];
    - otherwise ([x] is [+0], [-0], positive or [+Infinity]) the result
      is [-Infinity], [+Infinity] or an approximation of a real
      logarithm, hence a number that is not NaN;
    - [Math.pow(NaN, 4)] is NaN and [Math.pow(+0, 4)] is [+0]. *)
Class Conforming (M : MathLib) : Prop := {
  log_one : Math_log 1 = 0;
  log_undefined : forall x, (0 <=? x) = false -> Math_log x = nan;
  log_defined : forall x, (0 <=? x) = true -> is_nan (Math_log x) = false;
  pow4_nan : Math_pow nan 4 = nan;
  pow4_zero : Math_pow 0 4 = 0
}.

End JS.
Import JS.

(* ===================================================================== *)
(** * A reference [Math] library                                          *)
(* ===================================================================== *)

(** An executable [Math.log]/[Math.pow] that meets [Conforming]; it is
    what concrete runs of the model are evaluated with. *)
Module RefMath.

(** [ln 2], rounded. *)
Definition ln2 : float := 0x1.62e42fefa39efp-1.

(** [2 * atanh z] by its series [2 (z + z^3/3 + z^5/5 + ...)], summed
    from the smallest term. *)
Fixpoint atanh2_terms (n : nat) (z2 zpow k : float) : float :=
  match n with
  | O => 0
  | S n' => atanh2_terms n' z2 (zpow * z2) (k + 2) + zpow / k
  end.

Definition atanh2 (z : float) : float :=
  2 * atanh2_terms 30 (z * z) z 1.

Definition float_of_Z (z : Z) : float :=
  match z with
  | Z0 => 0
  | Zpos _ => of_uint63 (Uint63.of_Z z)
  | Zneg _ => - of_uint63 (Uint63.of_Z (- z))
  end.

(** [x = m * 2^e] with [m] in [[0.5, 1)], so
    [ln x = e ln 2 + 2 atanh ((m - 1) / (m + 1))]. *)
Definition log_finite (x : float) : float :=
  let (m, e) := Z.frexp x in
  float_of_Z e * ln2 + atanh2 ((m - 1) / (m + 1)).

Definition log (x : float) : float :=
  if 0 <=? x then
    if x =? 0 then neg_infinity
    else if x =? infinity then infinity
    else if x =? 1 then 0
    else let r := log_finite x in if is_nan r then 0 else r
  else nan.

(** [x^n] by repeated multiplication. *)
Fixpoint ipow (x : float) (n : nat) : float :=
  match n with
  | O => 1
  | S n' => x * ipow x n'
  end.

(** Exponents [0 .. 8] by multiplication; every other exponent is
    outside what the model asks for and is answered with NaN. *)
Definition pow (x y : float) : float :=
  if is_nan y then nan
  else if y =? 0 then 1
  else if is_nan x then nan
  else
    match find (fun n => y =? float_of_Z (Z.of_nat n)) (seq 1 8) with
    | Some n => ipow x n
    | None => nan
    end.

#[export] Instance lib : MathLib := {| Math_log := log; Math_pow := pow |}.

End RefMath.

(* ===================================================================== *)
(** * simulation module: [ClimateModel]                                   *)
(* ===================================================================== *)

(** The fields of a [ClimateModel] object. *)
Record ClimateModel : Type := mkClimateModel {
  co2 : number;
  albedo : number;
  solarIntensity : number;
  forestCover : number;
  sigma : number;
  preIndustrialCO2 : number;
  temperature : number;
  targetTemperature : number
}.

(** [new ClimateModel()]. *)
Definition constructor : ClimateModel :=
  {| co2 := 400;
     albedo := 0.3;
     solarIntensity := 1361;
     forestCover := 30;
     sigma := 5.67e-8;
     preIndustrialCO2 := 280;
     temperature := 15.0;
     targetTemperature := 15.0 |}.

(** Field assignments [this.f = v]. *)
Definition set_co2 (v : number) (this : ClimateModel) : ClimateModel :=
  mkClimateModel v (albedo this) (solarIntensity this) (forestCover this)
    (sigma this) (preIndustrialCO2 this) (temperature this)
    (targetTemperature this).

Definition set_albedo (v : number) (this : ClimateModel) : ClimateModel :=
  mkClimateModel (co2 this) v (solarIntensity this) (forestCover this)
    (sigma this) (preIndustrialCO2 this) (temperature this)
    (targetTemperature this).

Definition set_solarIntensity (v : number) (this : ClimateModel) : ClimateModel :=
  mkClimateModel (co2 this) (albedo this) v (forestCover this)
    (sigma this) (preIndustrialCO2 this) (temperature this)
    (targetTemperature this).

Definition set_forestCover (v : number) (this : ClimateModel) : ClimateModel :=
  mkClimateModel (co2 this) (albedo this) (solarIntensity this) v
    (sigma this) (preIndustrialCO2 this) (temperature this)
    (targetTemperature this).

Definition set_temperature (v : number) (this : ClimateModel) : ClimateModel :=
  mkClimateModel (co2 this) (albedo this) (solarIntensity this)
    (forestCover this) (sigma this) (preIndustrialCO2 this) v
    (targetTemperature this).

(** The object [step] returns. *)
Record Snapshot : Type := mkSnapshot {
  temp : number;
  netEnergy : number;
  absorbed : number;
  reflected : number;
  outgoing : number;
  incoming : number
}.

Section Step.

Context {M : MathLib}.

(** [step(dt)]: the balance is computed from the object as it is on
    entry, [this.temperature += tempChange] is the one assignment, and
    the snapshot reads [this.temperature] and [this.albedo] after it. *)
Definition step (dt : number) : state ClimateModel Snapshot :=
  this <- get ;;
  let incomingSolar := solarIntensity this / 4 in
  let absorbedSolar := incomingSolar * (1 - albedo this) in
  let forcingCO2 := 5.35 * Math_log (co2 this / preIndustrialCO2 this) in
  let emissivity := 0.61 - (forcingCO2 * 0.005) in
  let emissivity := Math_max 0.5 (Math_min 0.7 emissivity) in
  let currentTempK := temperature this + 273.15 in
  let outgoingRad := emissivity * sigma this * Math_pow currentTempK 4 in
  let netEnergy := absorbedSolar - outgoingRad in
  let heatCapacity := 50 in
  let tempChange := (netEnergy / heatCapacity) * dt in
  put (set_temperature (temperature this + tempChange) this) ;;
  this <- get ;;
  ret {| temp := temperature this;
         netEnergy := netEnergy;
         absorbed := absorbedSolar;
         reflected := incomingSolar * albedo this;
         outgoing := outgoingRad;
         incoming := incomingSolar |}.

(** The default of the parameter: [step()] is [step(0.1)]. *)
Definition dt_default : number := 0.1.

(** The returned snapshot and the object after the call. *)
Definition step_snapshot (dt : number) (this : ClimateModel) : Snapshot :=
  evalState (step dt) this.

Definition step_state (dt : number) (this : ClimateModel) : ClimateModel :=
  execState (step dt) this.

(** The [const]s of [step], each as a function of the object that
    [step] is entered with. *)

Definition incomingSolar (this : ClimateModel) : number :=
  solarIntensity this / 4.

Definition absorbedSolar (this : ClimateModel) : number :=
  incomingSolar this * (1 - albedo this).

Definition forcingCO2 (this : ClimateModel) : number :=
  5.35 * Math_log (co2 this / preIndustrialCO2 this).

(** [let emissivity = 0.61 - (forcingCO2 * 0.005)], before the clamp. *)
Definition emissivity0 (this : ClimateModel) : number :=
  0.61 - (forcingCO2 this * 0.005).

(** [emissivity = Math.max(0.5, Math.min(0.7, emissivity))]. *)
Definition emissivity (this : ClimateModel) : number :=
  Math_max 0.5 (Math_min 0.7 (emissivity0 this)).

Definition currentTempK (this : ClimateModel) : number :=
  temperature this + 273.15.

Definition outgoingRad (this : ClimateModel) : number :=
  emissivity this * sigma this * Math_pow (currentTempK this) 4.

Definition netEnergy_of (this : ClimateModel) : number :=
  absorbedSolar this - outgoingRad this.

Definition heatCapacity : number := 50.

Definition tempChange (this : ClimateModel) (dt : number) : number :=
  (netEnergy_of this / heatCapacity) * dt.

End Step.

(** ** [updateParams] *)

(** The primitive values a caller can put in the [params] object: the
    presets pass numbers, the sliders pass their [value] strings. A
    property that is absent reads as [undefined]. *)
Inductive value : Type :=
| VUndefined
| VNull
| VBoolean (b : bool)
| VNumber (n : number)
| VString (s : String.string).

(** [v !== undefined]. *)
Definition is_defined (v : value) : bool :=
  match v with
  | VUndefined => false
  | _ => true
  end.

(** The properties of [params] that [updateParams] reads. *)
Record Params : Type := mkParams {
  p_co2 : value;
  p_albedo : value;
  p_solar : value;
  p_forest : value
}.

Section UpdateParams.

(** ECMAScript's StringToNumber (the numeric-string grammar and its
    rounding), left abstract. *)
Variable StringToNumber : String.string -> number.

(** [Number(v)] on primitive values. *)
Definition Number (v : value) : number :=
  match v with
  | VUndefined => nan
  | VNull => 0
  | VBoolean true => 1
  | VBoolean false => 0
  | VNumber n => n
  | VString s => StringToNumber s
  end.

Definition updateParams (params : Params) : state ClimateModel unit :=
  this <- get ;;
  (if is_defined (p_co2 params)
   then put (set_co2 (Number (p_co2 params)) this)
   else ret tt) ;;
  this <- get ;;
  (if is_defined (p_albedo params)
   then put (set_albedo (Number (p_albedo params)) this)
   else ret tt) ;;
  this <- get ;;
  (if is_defined (p_solar params)
   then put (set_solarIntensity (Number (p_solar params)) this)
   else ret tt) ;;
  this <- get ;;
  (if is_defined (p_forest params)
   then put (set_forestCover (Number (p_forest params)) this)
   else ret tt).

Definition updateParams_state (params : Params) (this : ClimateModel)
  : ClimateModel :=
  execState (updateParams params) this.

End UpdateParams.

(** The objects a program can build with the class alone: [new], then
    any sequence of [updateParams] and [step] calls. *)
Inductive reachable {M : MathLib} (StringToNumber : String.string -> number)
  : ClimateModel -> Prop :=
| reach_new : reachable StringToNumber constructor
| reach_update : forall params this,
    reachable StringToNumber this ->
    reachable StringToNumber (updateParams_state StringToNumber params this)
| reach_step : forall dt this,
    reachable StringToNumber this ->
    reachable StringToNumber (step_state dt this).

(** No method assigns [sigma] or [preIndustrialCO2]: they keep the
    values the constructor gave them. *)
Definition constants_intact (this : ClimateModel) : Prop :=
  sigma this = 5.67e-8 /\ preIndustrialCO2 this = 280.

(** Repeated stepping, one [dt] per tick. *)
Definition run_steps {M : MathLib} (dts : list number) (this : ClimateModel)
  : ClimateModel :=
  fold_left (fun s dt => step_state dt s) dts this.

(* ===================================================================== *)
(** * graphs module: [ClimateGraphs]                                      *)
(* ===================================================================== *)

(** The data of the two charts that [ClimateGraphs] owns: the label and
    data arrays of the temperature line chart and the data array of the
    balance bar chart. Rendering ([Chart.update]) reads them only.
    [maxPoints] is the integer 50 in every object the class builds, so
    it is kept as an integer and compared exactly with the array
    length. *)
Record ClimateGraphs : Type := mkClimateGraphs {
  maxPoints : Z;
  timeLabel : number;
  temp_labels : list number;
  temp_data : list number;
  balance_data : list number
}.

(** [new ClimateGraphs()]: empty temperature chart, [[240, 240]] bars. *)
Definition graphs_constructor : ClimateGraphs :=
  {| maxPoints := 50;
     timeLabel := 0;
     temp_labels := [];
     temp_data := [];
     balance_data := [240; 240] |}.

(** [Array.prototype.push] and [Array.prototype.shift] on the array
    contents. *)
Definition push {A : Type} (l : list A) (x : A) : list A := l ++ [x].
Definition shift {A : Type} (l : list A) : list A := tl l.

Definition set_timeLabel (v : number) (g : ClimateGraphs) : ClimateGraphs :=
  mkClimateGraphs (maxPoints g) v (temp_labels g) (temp_data g) (balance_data g).

Definition set_temp_labels (v : list number) (g : ClimateGraphs) : ClimateGraphs :=
  mkClimateGraphs (maxPoints g) (timeLabel g) v (temp_data g) (balance_data g).

Definition set_temp_data (v : list number) (g : ClimateGraphs) : ClimateGraphs :=
  mkClimateGraphs (maxPoints g) (timeLabel g) (temp_labels g) v (balance_data g).

Definition set_balance_data (v : list number) (g : ClimateGraphs) : ClimateGraphs :=
  mkClimateGraphs (maxPoints g) (timeLabel g) (temp_labels g) (temp_data g) v.

(** [update(stats)]. *)
Definition update (stats : Snapshot) : state ClimateGraphs unit :=
  modify (fun this => set_timeLabel (timeLabel this + 1) this) ;;
  modify (fun this => set_temp_labels (push (temp_labels this) (timeLabel this)) this) ;;
  modify (fun this => set_temp_data (push (temp_data this) (temp stats)) this) ;;
  this <- get ;;
  (if (Z.of_nat (length (temp_labels this)) >? maxPoints this)%Z
   then
     modify (fun this => set_temp_labels (shift (temp_labels this)) this) ;;
     modify (fun this => set_temp_data (shift (temp_data this)) this) ;;
     ret tt
   else ret tt) ;;
  modify (fun this => set_balance_data [absorbed stats; outgoing stats] this) ;;
  ret tt.

Definition update_state (stats : Snapshot) (g : ClimateGraphs) : ClimateGraphs :=
  execState (update stats) g.

(** The chart after one [update] per element of [samples], oldest first. *)
Definition run_updates (samples : list Snapshot) (g : ClimateGraphs)
  : ClimateGraphs :=
  fold_left (fun g stats => update_state stats g) samples g.

(* ===================================================================== *)
(** * The specification's reading of [step]                               *)
(* ===================================================================== *)

(** Section 4.1 of the specification, items (a) to (g), written from its
    words; it is compared with [step] below. *)
Module Spec.

(** [clamp(x, lo, hi)]. *)
Definition clamp (x lo hi : number) : number :=
  if x <? lo then lo else if hi <? x then hi else x.

Definition sigma : number := 5.67e-8.

Section WithMath.
Context {M : MathLib}.

Record Balance : Type := mkBalance {
  b_incoming : number;
  b_absorbed : number;
  b_forcing : number;
  b_emissivity : number;
  b_outgoing : number;
  b_net : number;
  b_temperature : number
}.

Definition balance (co2 albedo solarIntensity temperature dt : number)
  : Balance :=
  let incoming := solarIntensity / 4 in
  let absorbed := incoming * (1 - albedo) in
  let forcing := 5.35 * Math_log (co2 / 280) in
  let emissivity := clamp (0.61 - forcing * 0.005) 0.5 0.7 in
  let outgoing := emissivity * sigma * Math_pow (temperature + 273.15) 4 in
  let net := absorbed - outgoing in
  {| b_incoming := incoming;
     b_absorbed := absorbed;
     b_forcing := forcing;
     b_emissivity := emissivity;
     b_outgoing := outgoing;
     b_net := net;
     b_temperature := temperature + (net / 50) * dt |}.

End WithMath.

End Spec.

(* ===================================================================== *)
(** * Vocabulary of the statements                                        *)
(* ===================================================================== *)

(** [lo <= x && x <= hi] in JavaScript; false as soon as [x] is NaN. *)
Definition in_range (lo hi x : number) : bool := (lo <=? x) && (x <=? hi).

(** Two objects hold the same climate state: the five variables of the
    specification's data model. *)
Definition same_state (s1 s2 : ClimateModel) : Prop :=
  co2 s1 = co2 s2 /\ albedo s1 = albedo s2 /\
  solarIntensity s1 = solarIntensity s2 /\
  forestCover s1 = forestCover s2 /\ temperature s1 = temperature s2.

(** Two objects that agree on everything except, possibly, [forestCover]. *)
Definition same_but_forestCover (s1 s2 : ClimateModel) : Prop :=
  co2 s1 = co2 s2 /\ albedo s1 = albedo s2 /\
  solarIntensity s1 = solarIntensity s2 /\
  sigma s1 = sigma s2 /\ preIndustrialCO2 s1 = preIndustrialCO2 s2 /\
  temperature s1 = temperature s2 /\
  targetTemperature s1 = targetTemperature s2.

(** The result of a rounding that is not NaN carries the sign [sx]. *)
Definition has_sign (sx : bool) (r : spec_float) : Prop :=
  match r with
  | S754_zero s | S754_infinity s | S754_finite s _ _ => s = sx
  | S754_nan => False
  end.

(** A finite number other than the zeros. *)
Definition finite_nonzero (c : float) : Prop :=
  exists s m e, Prim2SF c = S754_finite s m e.

Definition is_zero_sf (x : spec_float) : Prop := exists s, x = S754_zero s.

(** The invariant of the chart window after [n] updates: [maxPoints] is
    still 50, and both arrays hold min(n, 50) entries. *)
Definition window_ok (n : nat) (g : ClimateGraphs) : Prop :=
  maxPoints g = 50%Z /\
  length (temp_labels g) = Nat.min n 50 /\
  length (temp_data g) = Nat.min n 50.

(** Some concrete objects. *)
Module Examples.

(** The pre-industrial baseline: [updateParams({co2: 280})] on a new
    model. *)
Definition baseline : ClimateModel := set_co2 280 constructor.

(** A negative concentration: [updateParams({co2: -1})]. *)
Definition negative_co2 : ClimateModel := set_co2 (-1) constructor.

(** A dark planet at absolute zero: nothing comes in, nothing goes
    out, the net energy is [0]. *)
Definition frozen : ClimateModel :=
  set_temperature (-273.15) (set_solarIntensity 0 baseline).

(** [updateParams({solar: 1365, albedo: 0.18})] on a new model. *)
Definition bright : ClimateModel :=
  set_albedo 0.18 (set_solarIntensity 1365 constructor).

(** A sample as [step] returns it. *)
Definition sample (t : number) : Snapshot :=
  {| temp := t; netEnergy := 0; absorbed := 238; reflected := 102;
     outgoing := 238; incoming := 340 |}.

End Examples.

(* ===================================================================== *)
(** * earth module: [EarthScene.updateState]                              *)
(* ===================================================================== *)

(** [Math.PI] and [Math.abs]. *)
Definition Math_PI : number := 0x1.921fb54442d18p+1.
Definition Math_abs (x : number) : number := abs x.

(** What [updateState] uses of three.js: colours built from a hex code,
    and [a.lerp(b, alpha)], read as the value of [a] after the call. *)
Class ThreeLib : Type := {
  Color : Type;
  Color_hex : Z -> Color;
  Color_lerp : Color -> Color -> number -> Color
}.

(** The arguments a [THREE.SphereGeometry] is built with. *)
Record SphereGeometry : Type := mkSphereGeometry {
  radius : number;
  widthSegments : number;
  heightSegments : number;
  phiStart : number;
  phiLength : number;
  thetaStart : number;
  thetaLength : number
}.

(** The object [updateState] receives. *)
Record SimulationState : Type := mkSimulationState {
  s_temp : number;
  s_co2 : number;
  s_forest : number
}.

Section Scene.

Context {T : ThreeLib}.

(** The part of an [EarthScene] that [updateState] reads or writes. *)
Record EarthScene : Type := mkEarthScene {
  currentIceAngle : number;
  iceNorth_geometry : SphereGeometry;
  iceSouth_geometry : SphereGeometry;
  earthMaterial_color : Color;
  atmosphereMat_opacity : number;
  atmosphereMat_color : Color
}.

(** The scene as the constructor leaves it: both caps 0.4 radians wide,
    the earth material with the library's default white (a failed
    texture load may repaint it; [updateState] overwrites the colour
    anyway), the atmosphere at opacity 0.2. *)
Definition scene_constructor : EarthScene :=
  {| currentIceAngle := 0.4;
     iceNorth_geometry :=
       mkSphereGeometry 1.001 64 64 0 (Math_PI * 2) 0 0.4;
     iceSouth_geometry :=
       mkSphereGeometry 1.001 64 64 0 (Math_PI * 2) (Math_PI - 0.4) 0.4;
     earthMaterial_color := Color_hex 0xffffff;
     atmosphereMat_opacity := 0.2;
     atmosphereMat_color := Color_hex 0x88ccff |}.

Definition set_ice (angle : number) (north south : SphereGeometry)
  (this : EarthScene) : EarthScene :=
  mkEarthScene angle north south (earthMaterial_color this)
    (atmosphereMat_opacity this) (atmosphereMat_color this).

Definition set_earthMaterial_color (c : Color) (this : EarthScene) : EarthScene :=
  mkEarthScene (currentIceAngle this) (iceNorth_geometry this)
    (iceSouth_geometry this) c (atmosphereMat_opacity this)
    (atmosphereMat_color this).

Definition set_atmosphere (opacity : number) (c : Color) (this : EarthScene)
  : EarthScene :=
  mkEarthScene (currentIceAngle this) (iceNorth_geometry this)
    (iceSouth_geometry this) (earthMaterial_color this) opacity c.

(** The [iceAngle] that [updateState] computes from the temperature. *)
Definition iceAngle_of (temp : number) : number :=
  if 25 <? temp then 0
  else if temp <? -20 then Math_PI / 2
  else ((25 - temp) / 45) * (Math_PI / 2).

(** [updateState(simulationState)]. *)
Definition updateState (simulationState : SimulationState)
  : state EarthScene unit :=
  let temp := s_temp simulationState in
  let co2 := s_co2 simulationState in
  let forest := s_forest simulationState in
  let iceAngle := iceAngle_of temp in
  this <- get ;;
  (if 0.01 <? Math_abs (currentIceAngle this - iceAngle)
   then
     let endPhi := Math_max 0.001 iceAngle in
     put (set_ice iceAngle
            (mkSphereGeometry 1.001 64 64 0 (Math_PI * 2) 0 endPhi)
            (mkSphereGeometry 1.001 64 64 0 (Math_PI * 2)
               (Math_PI - endPhi) endPhi)
            this)
   else ret tt) ;;
  let forestColor :=
    Color_lerp (Color_hex 0xffeedd) (Color_hex 0xddffdd) (forest / 100) in
  modify (set_earthMaterial_color forestColor) ;;
  let co2Norm := (co2 - 280) / (600 - 280) in
  let cleanSky := Color_hex 0x88ccff in
  let smogSky := Color_hex 0xaabbcc in
  modify (set_atmosphere (0.2 + (co2Norm * 0.3))
            (Color_lerp cleanSky smogSky co2Norm)) ;;
  ret tt.

Definition updateState_state (simulationState : SimulationState)
  (this : EarthScene) : EarthScene :=
  execState (updateState simulationState) this.

(** The scene after one [updateState] per element, oldest first. *)
Definition run_updateStates (l : list SimulationState) (this : EarthScene)
  : EarthScene :=
  fold_left (fun sc st => updateState_state st sc) l this.

(** What holds of the ice caps of every scene: the stored angle is a
    number, both caps are as wide as [Math.max(0.001, angle)], hence at
    least 0.001 wide, and the southern cap ends at the pole. *)
Definition caps_ok (this : EarthScene) : Prop :=
  is_nan (currentIceAngle this) = false /\
  thetaLength (iceNorth_geometry this) = Math_max 0.001 (currentIceAngle this) /\
  thetaLength (iceSouth_geometry this) = Math_max 0.001 (currentIceAngle this) /\
  thetaStart (iceNorth_geometry this) = 0 /\
  thetaStart (iceSouth_geometry this) =
    Math_PI - Math_max 0.001 (currentIceAngle this) /\
  (0.001 <=? thetaLength (iceNorth_geometry this)) = true.

End Scene.

(* ===================================================================== *)
(** * main module: the model-facing part of [App]                         *)
(* ===================================================================== *)

Import String.StringSyntax.
Local Delimit Scope string_scope with string.

(** The three objects an [App] owns. Its other fields are handles of DOM
    elements, which the methods below only write to; those writes are not
    part of this state. *)
Record App {T : ThreeLib} : Type := mkApp {
  model : ClimateModel;
  scene : EarthScene;
  graphs : ClimateGraphs
}.

(** The object literal [{}]. *)
Definition empty_params : Params :=
  mkParams VUndefined VUndefined VUndefined VUndefined.

(** [{ [key]: value }], as [updateParams] reads it. *)
Definition params_of_key (key : String.string) (v : value) : Params :=
  mkParams
    (if String.eqb key "co2"%string then v else VUndefined)
    (if String.eqb key "albedo"%string then v else VUndefined)
    (if String.eqb key "solar"%string then v else VUndefined)
    (if String.eqb key "forest"%string then v else VUndefined).

(** The [params] that the [switch] of [loadPreset] ends with. *)
Definition preset_params (name : String.string) : Params :=
  if String.eqb name "pre-industrial"%string
  then mkParams (VNumber 280) (VNumber 0.32) (VNumber 1361) (VNumber 50)
  else if String.eqb name "modern"%string
  then mkParams (VNumber 420) (VNumber 0.30) (VNumber 1361) (VNumber 30)
  else if String.eqb name "extreme"%string
  then mkParams (VNumber 600) (VNumber 0.25) (VNumber 1365) (VNumber 10)
  else empty_params.

(** The provided properties of [later] over those of [earlier]. *)
Definition merge_params (earlier later : Params) : Params :=
  mkParams
    (if is_defined (p_co2 later) then p_co2 later else p_co2 earlier)
    (if is_defined (p_albedo later) then p_albedo later else p_albedo earlier)
    (if is_defined (p_solar later) then p_solar later else p_solar earlier)
    (if is_defined (p_forest later) then p_forest later else p_forest earlier).

(** What a program can do to a model: [updateParams] or [step]. *)
Inductive model_op : Type :=
| OpUpdateParams (params : Params)
| OpStep (dt : number).

(** What happens to an [App] after its construction: a timer tick, a
    slider input, a preset button. *)
Inductive app_event : Type :=
| EvTick
| EvInput (key : String.string) (v : value)
| EvPreset (name : String.string).

Section AppMethods.

Context {M : MathLib} {T : ThreeLib}.
Variable StringToNumber : String.string -> number.

Definition run_model_op (s : ClimateModel) (op : model_op) : ClimateModel :=
  match op with
  | OpUpdateParams params => updateParams_state StringToNumber params s
  | OpStep dt => step_state dt s
  end.

Definition run_model_ops (ops : list model_op) (s : ClimateModel)
  : ClimateModel :=
  fold_left run_model_op ops s.

(** [new App()]. *)
Definition app_constructor : App :=
  {| model := constructor;
     scene := scene_constructor;
     graphs := graphs_constructor |}.

(** [handleInput(key, value)]: [this.model.updateParams({ [key]: value })].
    The write to [this.displays[key]] that follows comes after the model
    was updated; for a key without a display element it throws inside the
    event listener, which leaves the three objects as modelled. *)
Definition handleInput (key : String.string) (v : value) (app : App) : App :=
  {| model := updateParams_state StringToNumber (params_of_key key v) (model app);
     scene := scene app;
     graphs := graphs app |}.

(** [loadPreset(name)]: [this.model.updateParams(params)]. *)
Definition loadPreset (name : String.string) (app : App) : App :=
  {| model := updateParams_state StringToNumber (preset_params name) (model app);
     scene := scene app;
     graphs := graphs app |}.

(** The callback of [startLoop]: one step of 0.5 s, the scene fed with
    the new temperature and the model's co2 and forestCover, the sample
    appended to the charts. ([updateUI] in between formats the snapshot
    into text nodes of the page and reads nothing back.) *)
Definition tick (app : App) : App :=
  let (stats, model') := runState (step 0.5) (model app) in
  let scene' :=
    updateState_state
      {| s_temp := temp stats;
         s_co2 := co2 model';
         s_forest := forestCover model' |}
      (scene app) in
  let graphs' := update_state stats (graphs app) in
  {| model := model'; scene := scene'; graphs := graphs' |}.

Definition run_event (app : App) (ev : app_event) : App :=
  match ev with
  | EvTick => tick app
  | EvInput key v => handleInput key v app
  | EvPreset name => loadPreset name app
  end.

Definition run_events (evs : list app_event) (app : App) : App :=
  fold_left run_event evs app.

Definition is_tick (ev : app_event) : bool :=
  match ev with
  | EvTick => true
  | _ => false
  end.

End AppMethods.

(** The tick counter after [k] increments of [timeLabel++] from 0. *)
Definition tick_label (k : nat) : number :=
  Nat.iter k (fun x => x + 1) 0.

(** The names the [switch] of [loadPreset] knows. *)
Definition known_preset (name : String.string) : Prop :=
  name = "pre-industrial"%string \/ name = "modern"%string \/
  name = "extreme"%string.

Section AppInvariant.

Context {T : ThreeLib}.

(** After [n] ticks: the model still has its constants, the chart holds
    min(n, 50) points, the last of which is the current temperature (15,
    the initial temperature, stands for the point of an empty chart), and
    the counter is at [n]. *)
Definition app_ok (n : nat) (app : App) : Prop :=
  constants_intact (model app) /\
  window_ok n (graphs app) /\
  last (temp_data (graphs app)) 15 = temperature (model app) /\
  timeLabel (graphs app) = tick_label n /\
  caps_ok (scene app).


End AppInvariant.

(** A stand-in three.js for concrete runs: colours as their hex code,
    [lerp] keeping the receiver. *)
Module RefThree.

#[export] Instance lib : ThreeLib :=
  {| Color := Z; Color_hex := fun h => h; Color_lerp := fun a _ _ => a |}.

End RefThree.

(* ===================================================================== *)
(** * Exact values of binary64 numbers                                    *)
(* ===================================================================== *)

(** Real-number readings of binary64 values, used to state how far a
    rounded result is from the exact one. *)
Module Exact.

Import Reals.
Local Open Scope R_scope.

(** [2^e] for an integer exponent. *)
Definition bpow (e : Z) : R := powerRZ 2 e.

(** The real number a finite binary64 value stands for: [(-1)^s m 2^e];
    the zeros stand for 0 (infinities and NaN are given 0 too and are
    kept out of the statements by [finite]). *)
Definition SF2R (x : spec_float) : R :=
  match x with
  | S754_finite s m e =>
      (if s then - IZR (Zpos m) else IZR (Zpos m)) * bpow e
  | _ => 0
  end.

(** The value of a primitive float. *)
Definition F2R (x : float) : R := SF2R (Prim2SF x).

(** The number that rounding builds from a mantissa and an exponent. *)
Definition round_result (sx : bool) (m3 e3 : Z) : spec_float :=
  match m3 with
  | Z0 => S754_zero sx
  | Zpos m =>
      if (e3 <=? emax - prec)%Z then S754_finite sx m e3 else S754_infinity sx
  | Zneg _ => S754_nan
  end.

(** The sign as a factor. *)
Definition sgn (s : bool) : R := if s then -1 else 1.

(** Zero or finite: neither NaN nor infinite. *)
Definition SFfinite (x : spec_float) : Prop :=
  match x with
  | S754_zero _ | S754_finite _ _ _ => True
  | _ => False
  end.

(** The unit roundoff scale [2^-52] and the smallest subnormal [2^-1074]. *)
Definition u52 : R := bpow (-52).
Definition eta : R := bpow (-1074).

(** [r] is a finite number within the rounding error of the real [v]. *)
Definition rounds_to (r : spec_float) (v : R) : Prop :=
  SFfinite r /\ Rabs (SF2R r - v) <= 2 * (u52 * Rabs v + eta).

Definition finite (x : float) : Prop := SFfinite (Prim2SF x).

End Exact.

(* ===================================================================== *)
(** * Facts about binary64 arithmetic                                     *)
(* ===================================================================== *)

Module FloatFacts.

(** ** Rounding never invents a NaN *)

Section Rounding.
Variables prec emax : Z.

Lemma shr_1_nonneg mrs : (0 <= shr_m mrs)%Z -> (0 <= shr_m (shr_1 mrs))%Z.
Proof.
  destruct mrs as [m r s]; simpl.
  destruct m as [|[p|p|]|[p|p|]]; simpl; lia.
Qed.

Lemma iter_pos_invariant {A : Type} (P : A -> Prop) (f : A -> A) :
  (forall x, P x -> P (f x)) ->
  forall n x, P x -> P (iter_pos f n x).
Proof.
  intros Hf; induction n as [n IH|n IH|]; simpl; intros x Hx; auto.
Qed.

Lemma shr_nonneg mrs e n :
  (0 <= shr_m mrs)%Z -> (0 <= shr_m (fst (shr mrs e n)))%Z.
Proof.
  intros H; unfold shr; destruct n; simpl; trivial.
  apply (iter_pos_invariant (fun r => (0 <= shr_m r)%Z)); trivial.
  apply shr_1_nonneg.
Qed.

Lemma shr_fexp_nonneg m e l :
  (0 <= m)%Z -> (0 <= shr_m (fst (shr_fexp prec emax m e l)))%Z.
Proof.
  intros H; unfold shr_fexp; apply shr_nonneg.
  destruct l as [|[]]; simpl; trivial.
Qed.

Lemma round_nearest_even_nonneg m l :
  (0 <= m)%Z -> (0 <= round_nearest_even m l)%Z.
Proof.
  intros H; destruct l as [|[]]; simpl; try lia.
  destruct (Z.even m); lia.
Qed.

Lemma binary_round_aux_sign sx mx ex lx :
  (0 <= mx)%Z -> has_sign sx (binary_round_aux prec emax sx mx ex lx).
Proof.
  intros H; unfold binary_round_aux.
  pose proof (shr_fexp_nonneg mx ex lx H) as H1.
  destruct (shr_fexp prec emax mx ex lx) as [mrs' e']; simpl in H1.
  pose proof (shr_fexp_nonneg _ e' loc_Exact
                (round_nearest_even_nonneg _ (loc_of_shr_record mrs') H1)) as H2.
  destruct (shr_fexp prec emax _ e' loc_Exact) as [mrs'' e'']; simpl in H2.
  destruct (shr_m mrs''); simpl; try reflexivity; try lia.
  destruct (Z.leb e'' (emax - prec)); reflexivity.
Qed.

Lemma binary_round_sign sx mx ex :
  has_sign sx (binary_round prec emax sx mx ex).
Proof.
  unfold binary_round.
  destruct (shl_align mx ex _) as [mz ez].
  apply binary_round_aux_sign; lia.
Qed.

Lemma binary_normalize_not_nan m e szero :
  binary_normalize prec emax m e szero <> S754_nan.
Proof.
  destruct m as [|p|p]; simpl; try discriminate.
  - pose proof (binary_round_sign false p e) as H.
    intros E; rewrite E in H; exact H.
  - pose proof (binary_round_sign true p e) as H.
    intros E; rewrite E in H; exact H.
Qed.

Lemma SFmul_finite_l sx mx ex y :
  y <> S754_nan -> SFmul prec emax (S754_finite sx mx ex) y <> S754_nan.
Proof.
  destruct y as [s|s| |s m e]; simpl; try discriminate; try congruence.
  intros _ E.
  pose proof (binary_round_aux_sign (xorb sx s) (Zpos (mx * m)) (ex + e) loc_Exact) as H.
  rewrite E in H; apply H; lia.
Qed.

Lemma SFmul_finite_r x sy my ey :
  x <> S754_nan -> SFmul prec emax x (S754_finite sy my ey) <> S754_nan.
Proof.
  destruct x as [s|s| |s m e]; simpl; try discriminate; try congruence.
  intros _ E.
  pose proof (binary_round_aux_sign (xorb s sy) (Zpos (m * my)) (e + ey) loc_Exact) as H.
  rewrite E in H; apply H; lia.
Qed.

Lemma SFsub_finite_l sx mx ex y :
  y <> S754_nan -> SFsub prec emax (S754_finite sx mx ex) y <> S754_nan.
Proof.
  destruct y as [s|s| |s m e]; simpl; try discriminate; try congruence.
  intros _; apply binary_normalize_not_nan.
Qed.

Lemma SFdiv_core_nonneg mx ex my ey :
  (0 <= fst (fst (SFdiv_core_binary prec emax (Zpos mx) ex (Zpos my) ey)))%Z.
Proof.
  unfold SFdiv_core_binary.
  set (s := (ex - ey - _)%Z).
  set (m' := match s with Zpos _ => Z.shiftl (Zpos mx) s | Z0 => Zpos mx | Zneg _ => Z0 end).
  assert (Hm : (0 <= m')%Z).
  { unfold m'; destruct s; try lia. apply Z.shiftl_nonneg; lia. }
  pose proof (Z.div_pos m' (Zpos my) Hm ltac:(lia)) as Hq.
  unfold Z.div in Hq.
  destruct (Z.div_eucl m' (Zpos my)) as [q r]; simpl in *; exact Hq.
Qed.

(** A number that is not below zero, divided by a positive finite
    number, is not below zero. *)
Lemma SFdiv_nonneg x my ey :
  SFleb (S754_zero false) x = true ->
  SFleb (S754_zero false) (SFdiv prec emax x (S754_finite false my ey)) = true.
Proof.
  destruct x as [s|s| |s m e]; simpl; try discriminate; trivial.
  - destruct s; trivial.
  - destruct s; try discriminate; intros _.
    pose proof (SFdiv_core_nonneg m e my ey) as Hq.
    destruct (SFdiv_core_binary prec emax (Zpos m) e (Zpos my) ey) as [[mz ez] lz].
    simpl in Hq; simpl xorb.
    pose proof (binary_round_aux_sign false mz ez lz Hq) as H.
    destruct (binary_round_aux prec emax false mz ez lz); simpl in H; subst;
      try reflexivity; contradiction.
Qed.

End Rounding.


(** ** The order of binary64 numbers *)

Ltac cmp_cases :=
  repeat match goal with
  | |- context [Pos.compare_cont Eq ?a ?b] =>
      change (Pos.compare_cont Eq a b) with (Pos.compare a b)
  | H : context [Pos.compare_cont Eq ?a ?b] |- _ =>
      change (Pos.compare_cont Eq a b) with (Pos.compare a b) in H
  end;
  repeat match goal with
  | |- context [Z.compare ?a ?b] => destruct (Z.compare_spec a b)
  | H : context [Z.compare ?a ?b] |- _ => destruct (Z.compare_spec a b)
  | |- context [Pos.compare ?a ?b] => destruct (Pos.compare_spec a b)
  | H : context [Pos.compare ?a ?b] |- _ => destruct (Pos.compare_spec a b)
  end;
  simpl in *; subst; try reflexivity; try discriminate; try (exfalso; lia).

Lemma SFcompare_antisym x y :
  SFcompare y x = option_map CompOpp (SFcompare x y).
Proof.
  destruct x as [[]|[]| |[] mx ex], y as [[]|[]| |[] my ey];
    simpl; try reflexivity; cmp_cases.
Qed.

Lemma SFltb_trans x y z :
  SFltb x y = true -> SFltb y z = true -> SFltb x z = true.
Proof.
  unfold SFltb.
  destruct x as [[]|[]| |[] mx ex], y as [[]|[]| |[] my ey],
           z as [[]|[]| |[] mz ez];
    simpl; try reflexivity; try discriminate; intros H1 H2; cmp_cases.
Qed.

Lemma SFltb_asym x y : SFltb x y = true -> SFltb y x = false.
Proof.
  unfold SFltb; rewrite (SFcompare_antisym x y).
  destruct (SFcompare x y) as [[]|]; simpl; congruence.
Qed.

Lemma SFltb_SFleb x y : SFltb x y = true -> SFleb x y = true.
Proof.
  unfold SFltb, SFleb; destruct (SFcompare x y) as [[]|]; congruence.
Qed.

(** Two numbers, neither below the other, are [===]. *)
Lemma SFltb_total x y :
  x <> S754_nan -> y <> S754_nan ->
  SFltb x y = false -> SFltb y x = false -> SFeqb x y = true.
Proof.
  unfold SFltb, SFeqb; rewrite (SFcompare_antisym x y).
  destruct x as [[]|[]| |[] mx ex], y as [[]|[]| |[] my ey];
    simpl; try reflexivity; try discriminate; try congruence; cmp_cases.
Qed.

(** [===] is Leibniz equality except between the two zeros. *)
Lemma SFeqb_eq x y :
  SFeqb x y = true ->
  x = y \/ (exists s s', x = S754_zero s /\ y = S754_zero s').
Proof.
  unfold SFeqb.
  destruct x as [[]|[]| |[] mx ex], y as [[]|[]| |[] my ey];
    simpl; try discriminate; try (left; reflexivity); try (right; eauto; fail);
    intros H; left; revert H; cmp_cases.
Qed.

Lemma SFeqb_refl x : x <> S754_nan -> SFeqb x x = true.
Proof.
  unfold SFeqb; destruct x as [[]|[]| |[] mx ex];
    simpl; try reflexivity; try congruence; intros _; cmp_cases.
Qed.


(** ** The same facts on primitive floats *)

Lemma Prim2SF_nan : Prim2SF nan = S754_nan.
Proof. reflexivity. Qed.

Lemma is_nan_true x : is_nan x = true <-> Prim2SF x = S754_nan.
Proof.
  unfold is_nan; rewrite FloatAxioms.eqb_spec; split.
  - intros H; destruct (Prim2SF x) eqn:E; trivial;
      rewrite SFeqb_refl in H by discriminate; discriminate.
  - intros ->; reflexivity.
Qed.

Lemma is_nan_false x : is_nan x = false <-> Prim2SF x <> S754_nan.
Proof.
  rewrite <- is_nan_true; destruct (is_nan x); split; congruence.
Qed.

Lemma is_nan_eq x : is_nan x = true -> x = nan.
Proof.
  intros H; apply Prim2SF_inj; rewrite Prim2SF_nan; apply is_nan_true, H.
Qed.

Lemma ltb_leb x y : (x <? y) = true -> (x <=? y) = true.
Proof. rewrite ltb_spec, leb_spec; apply SFltb_SFleb. Qed.

Lemma ltb_trans x y z : (x <? y) = true -> (y <? z) = true -> (x <? z) = true.
Proof. rewrite !ltb_spec; apply SFltb_trans. Qed.

Lemma ltb_asym x y : (x <? y) = true -> (y <? x) = false.
Proof. rewrite !ltb_spec; apply SFltb_asym. Qed.

Lemma ltb_total x y :
  is_nan x = false -> is_nan y = false ->
  (x <? y) = false -> (y <? x) = false -> (x =? y) = true.
Proof.
  rewrite !is_nan_false, !ltb_spec, FloatAxioms.eqb_spec; apply SFltb_total.
Qed.

Lemma eqb_refl x : is_nan x = false -> (x =? x) = true.
Proof. unfold is_nan; destruct (x =? x); trivial; discriminate. Qed.

(** [x === c] pins [x] down when [c] is not a zero. *)
Lemma eqb_eq_nonzero x c : (c =? 0) = false -> (x =? c) = true -> x = c.
Proof.
  rewrite !FloatAxioms.eqb_spec; intros Hc H; apply Prim2SF_inj.
  destruct (SFeqb_eq _ _ H) as [E|(s & s' & _ & E)]; trivial.
  rewrite E in Hc; destruct s'; discriminate.
Qed.

Lemma eqb_zero x : (x =? 0) = true -> exists s, Prim2SF x = S754_zero s.
Proof.
  rewrite FloatAxioms.eqb_spec; intros H.
  destruct (SFeqb_eq _ _ H) as [E|(s & s' & E & _)]; eauto.
  exists false; rewrite E; reflexivity.
Qed.

(** NaN is absorbing. *)
Lemma add_nan_l y : nan + y = nan.
Proof. apply Prim2SF_inj; rewrite add_spec; reflexivity. Qed.

Lemma mul_nan_r x : x * nan = nan.
Proof.
  apply Prim2SF_inj; rewrite mul_spec, Prim2SF_nan.
  destruct (Prim2SF x); reflexivity.
Qed.

Lemma sub_nan_r x : x - nan = nan.
Proof.
  apply Prim2SF_inj; rewrite sub_spec, Prim2SF_nan.
  destruct (Prim2SF x); reflexivity.
Qed.

Lemma mul_nan_l y : nan * y = nan.
Proof. apply Prim2SF_inj; rewrite mul_spec; reflexivity. Qed.

Lemma sub_nan_l y : nan - y = nan.
Proof. apply Prim2SF_inj; rewrite sub_spec; reflexivity. Qed.

(** Products and differences with a finite, non-zero constant are NaN
    only if the other operand is. *)
Lemma mul_const_l c y :
  finite_nonzero c -> is_nan y = false -> is_nan (c * y) = false.
Proof.
  intros (s & m & e & Hc); rewrite !is_nan_false, mul_spec, Hc.
  apply SFmul_finite_l.
Qed.

Lemma mul_const_r x c :
  finite_nonzero c -> is_nan x = false -> is_nan (x * c) = false.
Proof.
  intros (s & m & e & Hc); rewrite !is_nan_false, mul_spec, Hc.
  apply SFmul_finite_r.
Qed.

Lemma sub_const_l c y :
  finite_nonzero c -> is_nan y = false -> is_nan (c - y) = false.
Proof.
  intros (s & m & e & Hc); rewrite !is_nan_false, sub_spec, Hc.
  apply SFsub_finite_l.
Qed.

Lemma div_const_nonneg x c :
  (exists m e, Prim2SF c = S754_finite false m e) ->
  (0 <=? x) = true -> (0 <=? x / c) = true.
Proof.
  intros (m & e & Hc); rewrite !leb_spec, div_spec, Hc.
  apply SFdiv_nonneg.
Qed.

(** ** Adding a zero *)

(** A zero divided by a finite non-zero number, or multiplied by a
    finite number, is a zero. *)
Lemma div_zero_const z c :
  (z =? 0) = true -> finite_nonzero c -> (z / c =? 0) = true.
Proof.
  intros Hz (s & m & e & Hc); apply eqb_zero in Hz; destruct Hz as [sz Hz].
  rewrite FloatAxioms.eqb_spec, div_spec, Hz, Hc; reflexivity.
Qed.

Lemma is_finite_cases x :
  is_finite x = true ->
  (exists s, Prim2SF x = S754_zero s) \/
  (exists s m e, Prim2SF x = S754_finite s m e).
Proof.
  unfold is_finite, is_infinity; intros H.
  apply negb_true_iff, orb_false_iff in H; destruct H as [Hn Hi].
  apply is_nan_false in Hn.
  rewrite FloatAxioms.eqb_spec, abs_spec in Hi.
  destruct (Prim2SF x) as [s|s| |s m e]; eauto.
  - discriminate.
  - congruence.
Qed.

Lemma mul_zero_finite z x :
  (z =? 0) = true -> is_finite x = true -> (z * x =? 0) = true.
Proof.
  intros Hz Hx; apply eqb_zero in Hz; destruct Hz as [sz Hz].
  rewrite FloatAxioms.eqb_spec, mul_spec, Hz.
  destruct (is_finite_cases x Hx) as [(s & E)|(s & m & e & E)];
    rewrite E; reflexivity.
Qed.

(** Adding a zero to a number gives a number that is [===] to it, and
    indistinguishable from it once a non-zero constant is added. *)
Lemma add_zero_r_spec x z :
  (z =? 0) = true ->
  Prim2SF (x + z) = Prim2SF x \/
  (is_zero_sf (Prim2SF (x + z)) /\ is_zero_sf (Prim2SF x)).
Proof.
  intros Hz; apply eqb_zero in Hz; destruct Hz as [sz Hz].
  rewrite add_spec, Hz.
  destruct (Prim2SF x) as [s|s| |s m e]; simpl; auto.
  right; split; [|eexists; reflexivity].
  destruct s, sz; eexists; reflexivity.
Qed.

Lemma add_zero_r_eqb x z :
  is_nan x = false -> (z =? 0) = true -> (x + z =? x) = true.
Proof.
  intros Hx Hz; apply is_nan_false in Hx.
  rewrite FloatAxioms.eqb_spec.
  destruct (add_zero_r_spec x z Hz) as [E|[(s & E) (s' & E')]].
  - rewrite E; apply SFeqb_refl, Hx.
  - rewrite E, E'; reflexivity.
Qed.

Lemma add_zero_r_then_const x z c :
  finite_nonzero c -> (z =? 0) = true -> (x + z) + c = x + c.
Proof.
  intros (s & m & e & Hc) Hz; apply Prim2SF_inj.
  rewrite (add_spec (x + z) c), (add_spec x c), Hc.
  destruct (add_zero_r_spec x z Hz) as [E|[(s1 & E) (s2 & E')]].
  - rewrite E; reflexivity.
  - rewrite E, E'; reflexivity.
Qed.

(** ** Multiplying by one, and zeros on the other side *)

Lemma digits2_pos_shift52 m :
  Zpos (digits2_pos (4503599627370496 * m)) = (Zpos (digits2_pos m) + 52)%Z.
Proof. cbn [Pos.mul digits2_pos]; lia. Qed.

(** [1] is [2^52 * 2^-52]: the product has the mantissa of [x] shifted
    by 52 bits, and rounding shifts it back without loss. *)
Lemma SFmul_one_r x :
  valid_binary x = true -> SF64mul x (Prim2SF 1) = x.
Proof.
  change (Prim2SF 1) with (S754_finite false 4503599627370496 (-52)).
  destruct x as [s|s| |s m e];
    try (intros _; try destruct s; reflexivity).
  intros Hv; unfold SF64mul, SFmul.
  rewrite xorb_false_r, Pos.mul_comm.
  unfold valid_binary, bounded, canonical_mantissa in Hv.
  apply andb_true_iff in Hv; destruct Hv as [Hc Hb].
  apply Z.eqb_eq in Hc.
  unfold binary_round_aux, shr_fexp.
  unfold Zdigits2 at 1; rewrite digits2_pos_shift52.
  replace (fexp prec emax (Z.pos (digits2_pos m) + 52 + (e + -52)) - (e + -52))%Z
    with 52%Z
    by (replace (Z.pos (digits2_pos m) + 52 + (e + -52))%Z
          with (Z.pos (digits2_pos m) + e)%Z by lia; lia).
  cbn [shr shr_record_of_loc iter_pos Pos.mul shr_1 orb fst snd
       round_nearest_even shr_m loc_of_shr_record Zdigits2].
  replace (e + -52 + 52)%Z with e by lia.
  rewrite Hc, Z.sub_diag; cbn [shr shr_m]; rewrite Hb; reflexivity.
Qed.

Lemma mul_one_r x : x * 1 = x.
Proof.
  apply Prim2SF_inj; rewrite mul_spec; apply SFmul_one_r, Prim2SF_valid.
Qed.

Lemma is_finite_not_nan x : is_finite x = true -> is_nan x = false.
Proof.
  unfold is_finite; intros H.
  apply negb_true_iff, orb_false_iff in H; apply H.
Qed.

Lemma mul_finite_zero x z :
  is_finite x = true -> (z =? 0) = true -> (x * z =? 0) = true.
Proof.
  intros Hx Hz; apply eqb_zero in Hz; destruct Hz as [sz Hz].
  rewrite FloatAxioms.eqb_spec, mul_spec, Hz.
  destruct (is_finite_cases x Hx) as [(s & E)|(s & m & e & E)];
    rewrite E; reflexivity.
Qed.

Lemma sub_one_zero z : (z =? 0) = true -> 1 - z = 1.
Proof.
  intros Hz; apply eqb_zero in Hz; destruct Hz as [sz Hz].
  apply Prim2SF_inj; rewrite sub_spec, Hz; reflexivity.
Qed.

Lemma add_zero_l_eqb z x :
  is_nan x = false -> (z =? 0) = true -> (z + x =? x) = true.
Proof.
  intros Hx Hz; apply is_nan_false in Hx.
  apply eqb_zero in Hz; destruct Hz as [sz Hz].
  rewrite FloatAxioms.eqb_spec, add_spec, Hz.
  destruct (Prim2SF x) as [s|s| |s m e] eqn:E; simpl.
  - destruct sz, s; reflexivity.
  - destruct s; reflexivity.
  - congruence.
  - apply SFeqb_refl; discriminate.
Qed.


End FloatFacts.
Import FloatFacts.

(* ===================================================================== *)
(** * Rounding error of binary64 arithmetic                               *)
(* ===================================================================== *)

(** Addition, subtraction and multiplication return a number within
    [2 (2^-52 |v| + 2^-1074)] of the exact result [v], as long as [v] is
    below [2^1023] in magnitude. *)
Module ExactFacts.

Import Reals Lra.
Import Exact.
Local Open Scope R_scope.

Lemma bpow_pos e : 0 < bpow e.
Proof. apply powerRZ_lt; lra. Qed.

Lemma bpow_add a b : bpow (a + b) = bpow a * bpow b.
Proof. apply powerRZ_add; lra. Qed.

Lemma bpow_IZR k : (0 <= k)%Z -> IZR (2 ^ k) = bpow k.
Proof.
  intros H; unfold bpow.
  rewrite <- (Z2Nat.id k H) at 1.
  rewrite <- pow_IZR, pow_powerRZ, Z2Nat.id; trivial.
Qed.

Lemma bpow_ge_1 k : (0 <= k)%Z -> 1 <= bpow k.
Proof.
  intros H; rewrite <- bpow_IZR by trivial.
  apply IZR_le; pose proof (Z.pow_pos_nonneg 2 k); lia.
Qed.

Lemma bpow_le a b : (a <= b)%Z -> bpow a <= bpow b.
Proof.
  intros H; replace b with (a + (b - a))%Z by lia.
  rewrite bpow_add.
  pose proof (bpow_ge_1 (b - a) ltac:(lia)); pose proof (bpow_pos a); nra.
Qed.

Lemma bpow_lt a b : (a < b)%Z -> bpow a < bpow b.
Proof.
  intros H; replace b with (a + 1 + (b - a - 1))%Z by lia.
  rewrite !bpow_add.
  pose proof (bpow_ge_1 (b - a - 1) ltac:(lia)); pose proof (bpow_pos a).
  replace (bpow 1) with 2 by (unfold bpow; simpl; lra); nra.
Qed.

Lemma bpow_lt_inv a b : bpow a < bpow b -> (a < b)%Z.
Proof.
  intros H; destruct (Z_lt_le_dec a b) as [L|L]; trivial.
  apply bpow_le in L; lra.
Qed.

(** ** Digits *)

Lemma digits2_pos_bounds p :
  (2 ^ (Zpos (digits2_pos p) - 1) <= Zpos p < 2 ^ Zpos (digits2_pos p))%Z.
Proof.
  induction p as [p IH|p IH|]; cbn [digits2_pos].
  - rewrite Pos2Z.inj_succ.
    replace (Z.succ (Zpos (digits2_pos p)) - 1)%Z with (Z.succ (Zpos (digits2_pos p) - 1)) by lia.
    rewrite !Z.pow_succ_r by lia. lia.
  - rewrite Pos2Z.inj_succ.
    replace (Z.succ (Zpos (digits2_pos p)) - 1)%Z with (Z.succ (Zpos (digits2_pos p) - 1)) by lia.
    rewrite !Z.pow_succ_r by lia. lia.
  - cbn; lia.
Qed.

(** A number below [2^k] has at most [k] digits. *)
Lemma Zdigits2_le m k :
  (0 <= k)%Z -> (0 <= m < 2 ^ k)%Z -> (Zdigits2 m <= k)%Z.
Proof.
  intros Hk [H0 Hm]; destruct m as [|p|p]; cbn; try lia.
  destruct (digits2_pos_bounds p) as [Hl _].
  destruct (Z_le_gt_dec (Zpos (digits2_pos p)) k) as [L|L]; trivial.
  exfalso.
  assert (2 ^ k <= 2 ^ (Zpos (digits2_pos p) - 1))%Z
    by (apply Z.pow_le_mono_r; lia).
  lia.
Qed.

(** A number from [2^k] on has more than [k] digits. *)
Lemma digits2_pos_gt p k :
  (0 <= k)%Z -> (2 ^ k <= Zpos p)%Z -> (k < Zpos (digits2_pos p))%Z.
Proof.
  intros Hk H; destruct (digits2_pos_bounds p) as [_ Hu].
  apply (Z.pow_lt_mono_r_iff 2); lia.
Qed.

Lemma digits2_pos_mul p q :
  (Zpos (digits2_pos p) + Zpos (digits2_pos q) - 1
   <= Zpos (digits2_pos (p * q)))%Z.
Proof.
  destruct (digits2_pos_bounds p) as [Hp _], (digits2_pos_bounds q) as [Hq _].
  assert (H : (2 ^ (Zpos (digits2_pos p) - 1 + (Zpos (digits2_pos q) - 1))
               <= Zpos (p * q))%Z).
  { rewrite Z.pow_add_r by lia. rewrite Pos2Z.inj_mul. nia. }
  apply digits2_pos_gt in H; lia.
Qed.

Lemma Zdigits2_bounds m : (0 <= m)%Z -> (m < 2 ^ Zdigits2 m)%Z.
Proof.
  intros H; destruct m as [|p|p]; [reflexivity| |lia].
  cbn [Zdigits2]; apply digits2_pos_bounds.
Qed.

Lemma Zdigits2_nonneg m : (0 <= Zdigits2 m)%Z.
Proof. destruct m; cbn; lia. Qed.

(** ** Shifting right *)

Lemma shr_1_m mrs : (0 <= shr_m mrs)%Z -> shr_m (shr_1 mrs) = (shr_m mrs / 2)%Z.
Proof.
  destruct mrs as [m r s]; cbn [shr_m]; intros H.
  destruct m as [|[p|p|]|p]; cbn [shr_1 shr_m]; try lia; try reflexivity.
  - apply Z.div_unique with 1%Z; lia.
  - apply Z.div_unique with 0%Z; lia.
Qed.

Lemma iter_shr_1_m n mrs :
  (0 <= shr_m mrs)%Z ->
  shr_m (SpecFloat.iter_pos shr_1 n mrs) = (shr_m mrs / 2 ^ Zpos n)%Z.
Proof.
  revert mrs; induction n as [n IH|n IH|]; intros mrs H; cbn [SpecFloat.iter_pos].
  - assert (H1 : (0 <= shr_m (shr_1 mrs))%Z)
      by (rewrite shr_1_m by trivial; apply Z.div_pos; lia).
    assert (H2 : (0 <= shr_m (SpecFloat.iter_pos shr_1 n (shr_1 mrs)))%Z)
      by (rewrite IH by trivial; apply Z.div_pos; [trivial|apply Z.pow_pos_nonneg; lia]).
    rewrite IH, IH, shr_1_m by trivial.
    rewrite !Z.div_div by (try apply Z.pow_pos_nonneg; lia).
    f_equal. rewrite Pos2Z.inj_xI.
    replace (2 * Zpos n + 1)%Z with (1 + Zpos n + Zpos n)%Z by lia.
    rewrite !Z.pow_add_r by lia. lia.
  - assert (H2 : (0 <= shr_m (SpecFloat.iter_pos shr_1 n mrs))%Z)
      by (rewrite IH by trivial; apply Z.div_pos; [trivial|apply Z.pow_pos_nonneg; lia]).
    rewrite IH, IH by trivial.
    rewrite !Z.div_div by (try apply Z.pow_pos_nonneg; lia).
    f_equal. rewrite <- Z.pow_add_r by lia. f_equal; lia.
  - rewrite shr_1_m by trivial; reflexivity.
Qed.

(** [shr] by [n >= 0]: the mantissa is divided by [2^n]. *)
Lemma shr_m_div mrs e n :
  (0 <= shr_m mrs)%Z -> (0 <= n)%Z ->
  shr_m (fst (shr mrs e n)) = (shr_m mrs / 2 ^ n)%Z /\
  snd (shr mrs e n) = (e + n)%Z.
Proof.
  intros H Hn; destruct n as [|p|p]; cbn [shr fst snd]; try lia.
  - rewrite Z.div_1_r; split; lia.
  - split; [apply iter_shr_1_m, H|reflexivity].
Qed.

Lemma shr_m_of_loc m l : shr_m (shr_record_of_loc m l) = m.
Proof. destruct l as [|[]]; reflexivity. Qed.

Lemma round_nearest_even_cases m l :
  round_nearest_even m l = m \/ round_nearest_even m l = (m + 1)%Z.
Proof.
  destruct l as [|[]]; cbn; auto. destruct (Z.even m); auto.
Qed.

(** ** Rounding an exact mantissa *)

Lemma fexp_eq z : fexp prec emax z = Z.max (z - 53) (-1074).
Proof. reflexivity. Qed.

Lemma round_core mx n1 m2 n2 m3 :
  (0 <= mx)%Z -> (0 <= n1)%Z ->
  (m2 = mx / 2 ^ n1 \/ m2 = mx / 2 ^ n1 + 1)%Z ->
  (n2 = 0 \/ n2 = 1)%Z -> m3 = (m2 / 2 ^ n2)%Z ->
  (0 <= m3 /\ Z.abs (m3 * 2 ^ (n1 + n2) - mx) <= 2 * 2 ^ n1)%Z.
Proof.
  intros Hmx Hn1 Hm2 Hn2 ->.
  assert (Hq : (0 < 2 ^ n1)%Z) by (apply Z.pow_pos_nonneg; lia).
  rewrite Z.pow_add_r by lia.
  set (q := (2 ^ n1)%Z) in *.
  pose proof (Z.div_mod mx q ltac:(lia)) as Hd.
  pose proof (Z.mod_pos_bound mx q Hq) as Hr.
  assert (H1 : (0 <= mx / q)%Z) by (apply Z.div_pos; lia).
  set (m1 := (mx / q)%Z) in *; set (r := (mx mod q)%Z) in *.
  destruct Hn2 as [-> | ->].
  - change (2 ^ 0)%Z with 1%Z; rewrite Z.div_1_r.
    destruct Hm2 as [-> | ->]; split; nia.
  - change (2 ^ 1)%Z with 2%Z.
    assert (H2 : (0 <= m2)%Z) by (destruct Hm2; lia).
    pose proof (Z.div_mod m2 2 ltac:(lia)) as Hd2.
    pose proof (Z.mod_pos_bound m2 2 ltac:(lia)) as Hr2.
    assert (H3 : (0 <= m2 / 2)%Z) by (apply Z.div_pos; lia).
    set (m3 := (m2 / 2)%Z) in *; set (r2 := (m2 mod 2)%Z) in *.
    split; [lia|]. destruct Hm2; nia.
Qed.

(** Rounding a mantissa truncated at any location: the result is within
    two units of the target exponent of the truncated value. *)
Lemma bra_spec sx mz ez lz :
  let E := fexp prec emax (Zdigits2 mz + ez) in
  (0 <= mz)%Z -> (ez <= E)%Z ->
  exists m3 e3 : Z,
    (0 <= m3)%Z /\ (E <= e3 <= E + 1)%Z /\
    (Z.abs (m3 * 2 ^ (e3 - ez) - mz) <= 2 * 2 ^ (E - ez))%Z /\
    binary_round_aux prec emax sx mz ez lz = round_result sx m3 e3.
Proof.
  intros E Hmz HE.
  unfold binary_round_aux, shr_fexp; fold E.
  set (d := Zdigits2 mz) in *.
  pose proof (Zdigits2_nonneg mz) as Hd0; fold d in Hd0.
  set (rec0 := shr_record_of_loc mz lz).
  assert (Hrec0 : shr_m rec0 = mz) by apply shr_m_of_loc.
  destruct (shr_m_div rec0 ez (E - ez) ltac:(lia) ltac:(lia)) as [Hm1 He1].
  destruct (shr rec0 ez (E - ez)) as [mrs' e'] eqn:Hshr1.
  cbn [fst snd] in Hm1, He1. rewrite Hrec0 in Hm1.
  assert (He' : e' = E) by lia. subst e'.
  set (m1 := shr_m mrs') in *.
  assert (Hm1pos : (0 <= m1)%Z).
  { rewrite Hm1; apply Z.div_pos; [lia|apply Z.pow_pos_nonneg; lia]. }
  pose proof (round_nearest_even_cases m1 (loc_of_shr_record mrs')) as Hm2.
  set (m2 := round_nearest_even m1 (loc_of_shr_record mrs')) in *.
  assert (Hm2pos : (0 <= m2)%Z) by lia.
  assert (Hlt : (m1 < 2 ^ Z.max (d - (E - ez)) 0)%Z).
  { rewrite Hm1.
    apply Z.div_lt_upper_bound; [apply Z.pow_pos_nonneg; lia|].
    rewrite <- Z.pow_add_r by lia.
    pose proof (Zdigits2_bounds mz Hmz) as Hu; fold d in Hu.
    eapply Z.lt_le_trans; [exact Hu|apply Z.pow_le_mono_r; lia]. }
  assert (Hdig : (Zdigits2 m2 <= Z.max (d - (E - ez)) 0 + 1)%Z).
  { apply Zdigits2_le; [lia|]; split; [lia|].
    rewrite Z.pow_add_r by lia; change (2 ^ 1)%Z with 2%Z.
    pose proof (Z.pow_pos_nonneg 2 (Z.max (d - (E - ez)) 0)); lia. }
  replace (ez + (E - ez))%Z with E by lia.
  set (n2 := (fexp prec emax (Zdigits2 m2 + E) - E)%Z).
  assert (Hn2 : (n2 <= 1)%Z).
  { unfold n2; rewrite fexp_eq; unfold E in *; rewrite fexp_eq in *; lia. }
  set (rec2 := {| shr_m := m2; shr_r := false; shr_s := false |}).
  cbn [shr_record_of_loc]; fold rec2.
  destruct (Z_le_gt_dec n2 0) as [Hn0|Hn0].
  - exists m2, E.
    assert (Hs : shr rec2 E n2 = (rec2, E)) by (destruct n2; try lia; reflexivity).
    rewrite Hs; cbn [shr_m rec2]; split; [lia|]; split; [lia|].
    split; [|reflexivity].
    destruct (round_core mz (E - ez) m2 0 m2 ltac:(lia) ltac:(lia)) as [_ Hb];
      [rewrite <- Hm1; lia|lia|change (2 ^ 0)%Z with 1%Z; rewrite Z.div_1_r; reflexivity|].
    rewrite Z.add_0_r in Hb; exact Hb.
  - assert (Hn1 : n2 = 1%Z) by lia.
    exists (m2 / 2)%Z, (E + 1)%Z.
    rewrite Hn1; cbn [shr SpecFloat.iter_pos].
    destruct (round_core mz (E - ez) m2 1 (m2 / 2) ltac:(lia) ltac:(lia)) as [Hp Hb];
      [rewrite <- Hm1; lia|lia|reflexivity|].
    split; [exact Hp|]; split; [lia|].
    replace (E + 1 - ez)%Z with (E - ez + 1)%Z by lia.
    split; [exact Hb|].
    rewrite (shr_1_m rec2) by (cbn; lia); cbn [shr_m rec2].
    reflexivity.
Qed.

Lemma bra_exact_spec sx mx ex :
  let E := fexp prec emax (Zpos (digits2_pos mx) + ex) in
  (ex <= E)%Z ->
  exists m3 e3 : Z,
    (0 <= m3)%Z /\ (E <= e3 <= E + 1)%Z /\
    (Z.abs (m3 * 2 ^ (e3 - ex) - Zpos mx) <= 2 * 2 ^ (E - ex))%Z /\
    binary_round_aux prec emax sx (Zpos mx) ex loc_Exact = round_result sx m3 e3.
Proof.
  intros E HE; apply (bra_spec sx (Zpos mx) ex loc_Exact); [lia|exact HE].
Qed.

(** ** Values *)

Lemma SF2R_finite s m e : SF2R (S754_finite s m e) = sgn s * IZR (Zpos m) * bpow e.
Proof. destruct s; cbn; lra. Qed.

Lemma Rabs_sgn s x : Rabs (sgn s * x) = Rabs x.
Proof.
  destruct s; cbn; [|f_equal; lra].
  replace (-1 * x) with (- x) by lra; apply Rabs_Ropp.
Qed.

Lemma round_result_R sx m3 e3 mz ez E :
  (0 <= m3)%Z -> (ez <= E)%Z -> (E <= e3)%Z ->
  (Z.abs (m3 * 2 ^ (e3 - ez) - mz) <= 2 * 2 ^ (E - ez))%Z ->
  (e3 <= emax - prec)%Z ->
  SFfinite (round_result sx m3 e3) /\
  Rabs (SF2R (round_result sx m3 e3) - sgn sx * IZR mz * bpow ez)
    <= 2 * bpow E.
Proof.
  intros Hm3 HE He3 Hb Hov.
  assert (Hval : SF2R (round_result sx m3 e3) = sgn sx * IZR m3 * bpow e3).
  { unfold round_result; destruct m3 as [|m|m]; try lia.
    - cbn; lra.
    - apply Z.leb_le in Hov; rewrite Hov; apply SF2R_finite. }
  split.
  - unfold round_result; destruct m3 as [|m|m]; [exact I| |lia].
    apply Z.leb_le in Hov; rewrite Hov; exact I.
  - rewrite Hval.
    replace e3 with (ez + (e3 - ez))%Z at 1 by lia.
    rewrite bpow_add, <- (bpow_IZR (e3 - ez)) by lia.
    replace (sgn sx * IZR m3 * (bpow ez * IZR (2 ^ (e3 - ez)))
             - sgn sx * IZR mz * bpow ez)
      with (sgn sx * (bpow ez * IZR (m3 * 2 ^ (e3 - ez) - mz)))
      by (rewrite minus_IZR, mult_IZR; ring).
    rewrite Rabs_sgn, Rabs_mult, (Rabs_pos_eq (bpow ez)) by (left; apply bpow_pos).
    rewrite <- abs_IZR.
    apply IZR_le in Hb; rewrite mult_IZR, (bpow_IZR (E - ez)) in Hb by lia.
    assert (HbE : bpow E = bpow ez * bpow (E - ez))
      by (rewrite <- bpow_add; f_equal; lia).
    rewrite HbE; pose proof (bpow_pos ez); nra.
Qed.

(** The exponent of the result against the size of the value. *)
Lemma bpow_E_bound mx ex :
  let v := IZR (Zpos mx) * bpow ex in
  let E := fexp prec emax (Zpos (digits2_pos mx) + ex) in
  bpow E <= u52 * v + eta /\
  (v < bpow 1023 -> (E + 1 <= emax - prec)%Z).
Proof.
  intros v E.
  destruct (digits2_pos_bounds mx) as [Hl _].
  set (d := Zpos (digits2_pos mx)) in *.
  assert (Hv : bpow (d - 1 + ex) <= v).
  { unfold v; rewrite bpow_add, <- (bpow_IZR (d - 1)) by lia.
    apply IZR_le in Hl. pose proof (bpow_pos ex). nra. }
  split.
  - unfold E; rewrite fexp_eq.
    assert (H1 : bpow (d + ex - 53) <= u52 * v).
    { replace (d + ex - 53)%Z with (-52 + (d - 1 + ex))%Z by lia.
      rewrite bpow_add; fold u52. pose proof (bpow_pos (-52)); unfold u52; nra. }
    pose proof (bpow_pos (-1074)); pose proof (bpow_pos (d + ex - 53)).
    unfold eta.
    destruct (Z.max_spec (d + ex - 53) (-1074)) as [[_ ->]|[_ ->]]; lra.
  - intros Hlt.
    assert (Hd : (d - 1 + ex < 1023)%Z) by (apply bpow_lt_inv; lra).
    unfold E; rewrite fexp_eq. change (emax - prec)%Z with 971%Z. lia.
Qed.

(** The exponent of a rounded quotient against the size of the value. *)
Lemma bpow_E_bound0 mz ez :
  (0 <= mz)%Z -> (mz = 0 -> ez <= -1074)%Z ->
  let v := IZR mz * bpow ez in
  let E := fexp prec emax (Zdigits2 mz + ez) in
  bpow E <= u52 * v + eta /\
  (v < bpow 1023 -> (E + 1 <= emax - prec)%Z).
Proof.
  intros Hmz H0 v E.
  destruct mz as [|p|p]; [| |lia].
  - specialize (H0 eq_refl).
    assert (HE : E = (-1074)%Z)
      by (unfold E; cbn [Zdigits2]; rewrite fexp_eq; lia).
    rewrite HE; unfold v; split.
    + unfold eta; lra.
    + intros _; change (emax - prec)%Z with 971%Z; lia.
  - apply bpow_E_bound.
Qed.

(** Rounding the exact value [sx * mx * 2^ex], when [ex] is not above
    the exponent the format asks for. *)
Lemma bra_rounds_to sx mx ex :
  (ex <= fexp prec emax (Zpos (digits2_pos mx) + ex))%Z ->
  IZR (Zpos mx) * bpow ex < bpow 1023 ->
  rounds_to (binary_round_aux prec emax sx (Zpos mx) ex loc_Exact)
    (sgn sx * IZR (Zpos mx) * bpow ex).
Proof.
  intros HE Hv.
  destruct (bra_exact_spec sx mx ex HE) as (m3 & e3 & Hm3 & He3 & Hb & ->).
  destruct (bpow_E_bound mx ex) as [HbE Hov].
  specialize (Hov Hv).
  destruct (round_result_R sx m3 e3 (Zpos mx) ex _ Hm3 HE ltac:(lia) Hb ltac:(lia))
    as [Hf Herr].
  split; [exact Hf|].
  assert (Hav : Rabs (sgn sx * IZR (Zpos mx) * bpow ex) = IZR (Zpos mx) * bpow ex).
  { rewrite Rmult_assoc, Rabs_sgn; apply Rabs_pos_eq.
    apply Rmult_le_pos; [apply IZR_le; lia|left; apply bpow_pos]. }
  rewrite Hav; lra.
Qed.

(** ** Aligning and normalising *)

Lemma iter_xO_spec mx d :
  Zpos (Pos.iter xO mx d) = (Zpos mx * 2 ^ Zpos d)%Z /\
  Zpos (digits2_pos (Pos.iter xO mx d)) = (Zpos (digits2_pos mx) + Zpos d)%Z.
Proof.
  induction d as [|d [IH1 IH2]] using Pos.peano_ind.
  - cbn [Pos.iter digits2_pos]; split; lia.
  - rewrite Pos.iter_succ; cbn [digits2_pos].
    rewrite Pos2Z.inj_xO, IH1, !Pos2Z.inj_succ, IH2, Z.pow_succ_r by lia.
    split; lia.
Qed.

Lemma shl_align_spec mx ex ex' :
  let mz := fst (shl_align mx ex ex') in
  let ez := snd (shl_align mx ex ex') in
  ez = Z.min ex ex' /\
  Zpos mz = (Zpos mx * 2 ^ (ex - ez))%Z /\
  Zpos (digits2_pos mz) = (Zpos (digits2_pos mx) + (ex - ez))%Z.
Proof.
  unfold shl_align.
  destruct (ex' - ex)%Z as [|d|d] eqn:Hd; cbn [fst snd].
  - replace (ex - ex)%Z with 0%Z by lia; cbn; repeat split; lia.
  - replace (ex - ex)%Z with 0%Z by lia; cbn; repeat split; lia.
  - destruct (iter_xO_spec mx d) as [H1 H2].
    replace (ex - ex')%Z with (Zpos d) by lia.
    repeat split; trivial; lia.
Qed.

Lemma shl_align_value mx ex ex' :
  IZR (Zpos (fst (shl_align mx ex ex'))) * bpow (snd (shl_align mx ex ex'))
  = IZR (Zpos mx) * bpow ex.
Proof.
  destruct (shl_align_spec mx ex ex') as (He & Hm & _).
  rewrite Hm, mult_IZR, bpow_IZR by lia.
  rewrite Rmult_assoc, <- bpow_add; do 2 f_equal; lia.
Qed.

(** [binary_round] rounds the value it is given. *)
Lemma binary_round_rounds_to sx mx ex :
  IZR (Zpos mx) * bpow ex < bpow 1023 ->
  rounds_to (binary_round prec emax sx mx ex)
    (sgn sx * IZR (Zpos mx) * bpow ex).
Proof.
  intros Hv; unfold binary_round.
  set (E := fexp prec emax (Zpos (digits2_pos mx) + ex)).
  pose proof (shl_align_spec mx ex E) as (He & Hm & Hd).
  pose proof (shl_align_value mx ex E) as Hval.
  destruct (shl_align mx ex E) as [mz ez]; cbn [fst snd] in *.
  rewrite Rmult_assoc, <- Hval, <- Rmult_assoc.
  apply bra_rounds_to.
  - rewrite Hd. replace (Zpos (digits2_pos mx) + (ex - ez) + ez)%Z
      with (Zpos (digits2_pos mx) + ex)%Z by lia.
    fold E; lia.
  - rewrite Hval; exact Hv.
Qed.

(** [binary_normalize] rounds the integer [m] times [2^e]. *)
Lemma binary_normalize_rounds_to m e szero :
  Rabs (IZR m * bpow e) < bpow 1023 ->
  rounds_to (binary_normalize prec emax m e szero) (IZR m * bpow e).
Proof.
  intros Hv; destruct m as [|p|p]; cbn [binary_normalize].
  - split; [exact I|].
    cbn [SF2R]; rewrite Rmult_0_l, Rminus_0_r, Rabs_R0.
    pose proof (bpow_pos (-52)); pose proof (bpow_pos (-1074)).
    unfold u52, eta; lra.
  - replace (IZR (Zpos p) * bpow e) with (sgn false * IZR (Zpos p) * bpow e)
      by (cbn; lra).
    apply binary_round_rounds_to.
    rewrite Rabs_pos_eq in Hv; trivial.
    apply Rmult_le_pos; [apply IZR_le; lia|left; apply bpow_pos].
  - replace (IZR (Zneg p) * bpow e) with (sgn true * IZR (Zpos p) * bpow e)
      by (cbn; change (Zneg p) with (- Zpos p)%Z; rewrite opp_IZR; lra).
    apply binary_round_rounds_to.
    replace (IZR (Zneg p) * bpow e) with (- (IZR (Zpos p) * bpow e)) in Hv
      by (change (Zneg p) with (- Zpos p)%Z; rewrite opp_IZR; lra).
    rewrite Rabs_Ropp, Rabs_pos_eq in Hv; trivial.
    apply Rmult_le_pos; [apply IZR_le; lia|left; apply bpow_pos].
Qed.

(** ** The operations *)

Lemma rounds_to_exact r v : SFfinite r -> SF2R r = v -> rounds_to r v.
Proof.
  intros Hf <-; split; trivial.
  rewrite Rminus_diag, Rabs_R0.
  pose proof (bpow_pos (-52)); pose proof (bpow_pos (-1074)).
  pose proof (Rabs_pos (SF2R r)); unfold u52, eta; nra.
Qed.

Lemma sgn_xorb a b : sgn (xorb a b) = sgn a * sgn b.
Proof. destruct a, b; cbn; lra. Qed.

(** What validity says of a mantissa and its exponent. *)
Lemma valid_finite s m e :
  valid_binary (S754_finite s m e) = true ->
  (Zpos (digits2_pos m) <= 53 /\ -1074 <= e <= 971 /\
   (Zpos (digits2_pos m) = 53 \/ e = -1074))%Z.
Proof.
  unfold valid_binary, bounded, canonical_mantissa; intros H.
  apply andb_true_iff in H; destruct H as [Hc Hb].
  apply Z.eqb_eq in Hc; apply Z.leb_le in Hb.
  rewrite fexp_eq in Hc; change (emax - prec)%Z with 971%Z in Hb. lia.
Qed.

Lemma SFmul_rounds_to x y :
  valid_binary x = true -> valid_binary y = true ->
  SFfinite x -> SFfinite y ->
  Rabs (SF2R x * SF2R y) < bpow 1023 ->
  rounds_to (SF64mul x y) (SF2R x * SF2R y).
Proof.
  intros Vx Vy Fx Fy Hv.
  destruct x as [sx|sx| |sx mx ex], y as [sy|sy| |sy my ey];
    try contradiction;
    try (apply rounds_to_exact; [exact I|cbn; lra]).
  unfold SF64mul, SFmul.
  assert (Hval : SF2R (S754_finite sx mx ex) * SF2R (S754_finite sy my ey)
                 = sgn (xorb sx sy) * IZR (Zpos (mx * my)) * bpow (ex + ey)).
  { rewrite !SF2R_finite, sgn_xorb, Pos2Z.inj_mul, mult_IZR, bpow_add; ring. }
  rewrite Hval in *.
  apply bra_rounds_to.
  - apply valid_finite in Vx, Vy.
    pose proof (digits2_pos_mul mx my).
    rewrite fexp_eq; lia.
  - rewrite Rmult_assoc, Rabs_sgn, Rabs_pos_eq in Hv; trivial.
    apply Rmult_le_pos; [apply IZR_le; lia|left; apply bpow_pos].
Qed.

Lemma cond_Zopp_R s m : IZR (cond_Zopp s (Zpos m)) = sgn s * IZR (Zpos m).
Proof. destruct s; cbn [cond_Zopp sgn]; [rewrite opp_IZR|]; lra. Qed.

Lemma aligned_value s m e ez :
  (ez <= e)%Z ->
  IZR (cond_Zopp s (Zpos (fst (shl_align m e ez)))) * bpow ez
  = SF2R (S754_finite s m e).
Proof.
  intros H; rewrite cond_Zopp_R, SF2R_finite, Rmult_assoc.
  pose proof (shl_align_value m e ez) as Hv.
  destruct (shl_align_spec m e ez) as (He & _).
  rewrite He, Z.min_r in Hv by lia. rewrite Hv; ring.
Qed.

Lemma SFadd_rounds_to x y :
  SFfinite x -> SFfinite y ->
  Rabs (SF2R x + SF2R y) < bpow 1023 ->
  rounds_to (SF64add x y) (SF2R x + SF2R y).
Proof.
  intros Fx Fy Hv.
  destruct x as [sx|sx| |sx mx ex], y as [sy|sy| |sy my ey];
    try contradiction.
  - apply rounds_to_exact; [destruct sx, sy; exact I|destruct sx, sy; cbn; lra].
  - apply rounds_to_exact; [exact I|cbn [SF64add SFadd SF2R]; lra].
  - apply rounds_to_exact; [exact I|cbn [SF64add SFadd SF2R]; lra].
  - unfold SF64add, SFadd.
    set (ez := Z.min ex ey).
    assert (Hval : IZR (cond_Zopp sx (Zpos (fst (shl_align mx ex ez)))
                        + cond_Zopp sy (Zpos (fst (shl_align my ey ez))))
                   * bpow ez
                   = SF2R (S754_finite sx mx ex) + SF2R (S754_finite sy my ey)).
    { rewrite plus_IZR, Rmult_plus_distr_r, !aligned_value by (unfold ez; lia).
      reflexivity. }
    rewrite <- Hval in *; apply binary_normalize_rounds_to, Hv.
Qed.

Lemma SFsub_rounds_to x y :
  SFfinite x -> SFfinite y ->
  Rabs (SF2R x - SF2R y) < bpow 1023 ->
  rounds_to (SF64sub x y) (SF2R x - SF2R y).
Proof.
  intros Fx Fy Hv.
  destruct x as [sx|sx| |sx mx ex], y as [sy|sy| |sy my ey];
    try contradiction.
  - apply rounds_to_exact; [destruct sx, sy; exact I|destruct sx, sy; cbn; lra].
  - apply rounds_to_exact; [exact I|].
    cbn [SF64sub SFsub]; rewrite !SF2R_finite; destruct sy; cbn; lra.
  - apply rounds_to_exact; [exact I|cbn [SF64sub SFsub SF2R]; lra].
  - unfold SF64sub, SFsub.
    set (ez := Z.min ex ey).
    assert (Hval : IZR (cond_Zopp sx (Zpos (fst (shl_align mx ex ez)))
                        - cond_Zopp sy (Zpos (fst (shl_align my ey ez))))
                   * bpow ez
                   = SF2R (S754_finite sx mx ex) - SF2R (S754_finite sy my ey)).
    { rewrite minus_IZR, Rmult_minus_distr_r, !aligned_value by (unfold ez; lia).
      reflexivity. }
    rewrite <- Hval in *; apply binary_normalize_rounds_to, Hv.
Qed.

(** ** The order, in the reals *)

(** Among valid numbers, a smaller exponent means a smaller value. *)
Lemma canonical_lt m1 e1 m2 e2 s1 s2 :
  valid_binary (S754_finite s1 m1 e1) = true ->
  valid_binary (S754_finite s2 m2 e2) = true ->
  (e1 < e2)%Z ->
  IZR (Zpos m1) * bpow e1 < IZR (Zpos m2) * bpow e2.
Proof.
  intros V1 V2 He; apply valid_finite in V1, V2.
  destruct (digits2_pos_bounds m1) as [_ H1], (digits2_pos_bounds m2) as [H2 _].
  assert (Hd2 : Zpos (digits2_pos m2) = 53%Z) by lia.
  rewrite Hd2 in H2.
  assert (H1' : (Zpos m1 < 2 ^ 53)%Z).
  { eapply Z.lt_le_trans; [exact H1|apply Z.pow_le_mono_r; lia]. }
  apply IZR_lt in H1'; apply IZR_le in H2.
  rewrite bpow_IZR in H1', H2 by lia.
  assert (Hb : bpow 53 * bpow e1 <= bpow (53 - 1) * bpow e2).
  { rewrite <- !bpow_add; apply bpow_le; lia. }
  pose proof (bpow_pos e1); pose proof (bpow_pos e2). nra.
Qed.

Lemma SFleb_R x y :
  valid_binary x = true -> valid_binary y = true ->
  SFfinite x -> SFfinite y ->
  SFleb x y = true -> SF2R x <= SF2R y.
Proof.
  intros Vx Vy Fx Fy; unfold SFleb.
  destruct x as [sx|sx| |sx mx ex], y as [sy|sy| |sy my ey];
    try contradiction; cbn [SFcompare].
  - cbn; lra.
  - destruct sy; [discriminate|intros _].
    rewrite SF2R_finite; cbn [SF2R sgn].
    pose proof (bpow_pos ey); pose proof (IZR_lt 0 (Zpos my) ltac:(lia)); nra.
  - destruct sx; [intros _|discriminate].
    rewrite SF2R_finite; cbn [SF2R sgn].
    pose proof (bpow_pos ex); pose proof (IZR_lt 0 (Zpos mx) ltac:(lia)); nra.
  - rewrite !SF2R_finite.
    pose proof (bpow_pos ex); pose proof (bpow_pos ey).
    pose proof (IZR_lt 0 (Zpos mx) ltac:(lia)); pose proof (IZR_lt 0 (Zpos my) ltac:(lia)).
    destruct sx, sy; cbn [sgn]; try discriminate.
    + (* both negative *)
      destruct (Z.compare_spec ex ey) as [E|E|E]; try discriminate.
      * subst ey.
        change (Pos.compare_cont Eq mx my) with (Pos.compare mx my).
        destruct (Pos.compare_spec mx my) as [E'|E'|E']; cbn; try discriminate;
          intros _.
        -- subst; lra.
        -- assert (IZR (Zpos my) < IZR (Zpos mx)) by (apply IZR_lt; lia); nra.
      * intros _.
        pose proof (canonical_lt my ey mx ex true true Vy Vx E); lra.
    + intros _; nra.
    + (* both positive *)
      destruct (Z.compare_spec ex ey) as [E|E|E]; try discriminate.
      * subst ey.
        change (Pos.compare_cont Eq mx my) with (Pos.compare mx my).
        destruct (Pos.compare_spec mx my) as [E'|E'|E']; cbn; try discriminate;
          intros _.
        -- subst; lra.
        -- assert (IZR (Zpos mx) < IZR (Zpos my)) by (apply IZR_lt; lia); nra.
      * intros _.
        pose proof (canonical_lt mx ex my ey false false Vx Vy E); lra.
Qed.

Lemma SFabs_R x : SF2R (SFabs x) = Rabs (SF2R x).
Proof.
  destruct x as [s|s| |s m e]; cbn [SFabs SF2R]; try (rewrite Rabs_R0; reflexivity).
  assert (0 <= IZR (Zpos m) * bpow e)
    by (apply Rmult_le_pos; [apply IZR_le; lia|left; apply bpow_pos]).
  destruct s.
  - replace (- IZR (Zpos m) * bpow e) with (- (IZR (Zpos m) * bpow e)) by lra.
    rewrite Rabs_Ropp, Rabs_pos_eq; trivial.
  - rewrite Rabs_pos_eq; trivial.
Qed.

(** ** On primitive floats *)

Lemma finite_is_finite x : finite x <-> is_finite x = true.
Proof.
  unfold finite, is_finite, is_nan, is_infinity.
  rewrite !FloatAxioms.eqb_spec, abs_spec.
  change (Prim2SF infinity) with (S754_infinity false).
  destruct (Prim2SF x) as [s|s| |s m e] eqn:E.
  - cbn; tauto.
  - cbn; destruct s; cbn; split; [tauto|discriminate|tauto|discriminate].
  - cbn; split; [tauto|discriminate].
  - rewrite SFeqb_refl by discriminate; cbn; tauto.
Qed.

(** [Math.abs(x) <= c] for a finite [c]: [x] is finite, bounded by [c]. *)
Lemma abs_leb_R x c :
  finite c -> (abs x <=? c)%float = true ->
  finite x /\ Rabs (F2R x) <= F2R c.
Proof.
  unfold finite, F2R; intros Fc; rewrite leb_spec, abs_spec; intros H.
  assert (Fx : SFfinite (Prim2SF x)).
  { destruct (Prim2SF x) as [s|s| |s m e]; cbn; trivial;
      destruct (Prim2SF c) as [sc|sc| |sc mc ec]; try contradiction;
      try destruct s; try destruct sc; discriminate. }
  split; trivial.
  rewrite <- SFabs_R; apply SFleb_R; trivial.
  - pose proof (Prim2SF_valid x); destruct (Prim2SF x); trivial.
  - apply Prim2SF_valid.
  - destruct (Prim2SF x); trivial.
Qed.

Lemma mul_rounds x y :
  finite x -> finite y -> Rabs (F2R x * F2R y) < bpow 1023 ->
  rounds_to (Prim2SF (x * y)) (F2R x * F2R y).
Proof.
  intros; rewrite mul_spec; apply SFmul_rounds_to; trivial; apply Prim2SF_valid.
Qed.

Lemma add_rounds x y :
  finite x -> finite y -> Rabs (F2R x + F2R y) < bpow 1023 ->
  rounds_to (Prim2SF (x + y)) (F2R x + F2R y).
Proof. intros; rewrite add_spec; apply SFadd_rounds_to; trivial. Qed.

Lemma sub_rounds x y :
  finite x -> finite y -> Rabs (F2R x - F2R y) < bpow 1023 ->
  rounds_to (Prim2SF (x - y)) (F2R x - F2R y).
Proof. intros; rewrite sub_spec; apply SFsub_rounds_to; trivial. Qed.

(** ** Division *)

Lemma SFdiv_core_spec mx ex my ey :
  (Zpos (digits2_pos mx) <= 53)%Z ->
  exists q e' r l,
    SFdiv_core_binary prec emax (Zpos mx) ex (Zpos my) ey = (q, e', l) /\
    (0 <= q)%Z /\ (0 <= r < Zpos my)%Z /\
    (e' <= fexp prec emax (Zdigits2 q + e'))%Z /\
    (q = 0 -> e' <= -1074)%Z /\
    IZR (Zpos mx) * bpow ex / (IZR (Zpos my) * bpow ey)
    = (IZR q + IZR r / IZR (Zpos my)) * bpow e'.
Proof.
  intros Hd1.
  unfold SFdiv_core_binary; cbn [Zdigits2].
  set (d1 := Zpos (digits2_pos mx)) in *.
  set (d2 := Zpos (digits2_pos my)).
  set (z := (d1 + ex - (d2 + ey))%Z).
  assert (Hmin : IntDef.Z.min (fexp prec emax z) (ex - ey)
                 = Z.min (Z.max (z - 53) (-1074)) (ex - ey)) by reflexivity.
  rewrite Hmin; clear Hmin.
  set (e' := Z.min (Z.max (z - 53) (-1074)) (ex - ey)).
  set (s := (ex - ey - e')%Z).
  assert (Hs : (0 <= s)%Z) by (unfold s, e'; lia).
  set (m' := match s with
             | 0%Z => Zpos mx
             | Zpos _ => IntDef.Z.shiftl (Zpos mx) s
             | Zneg _ => 0%Z
             end).
  assert (Hm' : m' = (Zpos mx * 2 ^ s)%Z).
  { unfold m'; destruct s as [|p|p]; [lia| |lia].
    change (IntDef.Z.shiftl (Zpos mx) (Zpos p)) with (Z.shiftl (Zpos mx) (Zpos p)).
    apply Z.shiftl_mul_pow2; lia. }
  clearbody m'.
  pose proof (Z_div_mod m' (Zpos my) ltac:(lia)) as Hdiv.
  change (IntDef.Z.div_eucl m' (Zpos my)) with (Z.div_eucl m' (Zpos my)).
  destruct (Z.div_eucl m' (Zpos my)) as [q r]; destruct Hdiv as [Hqr Hr].
  exists q, e', r, (new_location (Zpos my) r).
  split; [reflexivity|].
  destruct (digits2_pos_bounds mx) as [Hl1 Hu1]; fold d1 in Hl1, Hu1.
  destruct (digits2_pos_bounds my) as [Hl2 Hu2]; fold d2 in Hl2, Hu2.
  assert (Hd1pos : (1 <= d1)%Z) by (unfold d1; lia).
  assert (Hd2pos : (1 <= d2)%Z) by (unfold d2; lia).
  assert (H2s : (0 < 2 ^ s)%Z) by (apply Z.pow_pos_nonneg; lia).
  assert (Hm'lo : (2 ^ (d1 - 1 + s) <= m')%Z).
  { rewrite Hm', Z.pow_add_r by lia. nia. }
  assert (Hq : (0 <= q)%Z) by nia.
  assert (Hdig : (d1 + s - d2 <= Zdigits2 q)%Z).
  { destruct q as [|p|p]; [| |lia].
    - cbn [Zdigits2].
      assert (Hlt : (2 ^ (d1 - 1 + s) < 2 ^ d2)%Z) by lia.
      apply Z.pow_lt_mono_r_iff in Hlt; lia.
    - cbn [Zdigits2].
      destruct (Z_le_gt_dec (d1 + s - d2) 0) as [Hk|Hk]; [lia|].
      assert (Hp : (2 ^ (d1 + s - d2 - 1) <= Zpos p)%Z).
      { assert (Hsplit : (2 ^ (d1 - 1 + s) = 2 ^ (d1 + s - d2 - 1) * 2 ^ d2)%Z)
          by (rewrite <- Z.pow_add_r by lia; f_equal; lia).
        assert (0 < 2 ^ (d1 + s - d2 - 1))%Z by (apply Z.pow_pos_nonneg; lia).
        nia. }
      pose proof (digits2_pos_gt p (d1 + s - d2 - 1) ltac:(lia) Hp); lia. }
  split; [exact Hq|]; split; [exact Hr|]; split; [|split].
  - rewrite fexp_eq; unfold s, e', z in *; lia.
  - intros ->; cbn [Zdigits2] in Hdig. unfold s, e', z in *; lia.
  - assert (He : bpow ex = bpow s * bpow e' * bpow ey).
    { rewrite <- !bpow_add; f_equal; unfold s; lia. }
    rewrite He, <- (bpow_IZR s) by lia.
    assert (Hm'R : IZR (Zpos mx) * IZR (2 ^ s) = IZR (Zpos my) * IZR q + IZR r).
    { rewrite <- !mult_IZR, <- plus_IZR; f_equal; lia. }
    pose proof (bpow_pos ey); pose proof (bpow_pos e').
    assert (IZR (Zpos my) <> 0) by (apply not_0_IZR; lia).
    field_simplify_eq; [|split; lra].
    replace (IZR (Zpos mx) * IZR (2 ^ s) * bpow e' * bpow ey)
      with ((IZR (Zpos mx) * IZR (2 ^ s)) * bpow e' * bpow ey) by ring.
    rewrite Hm'R; ring.
Qed.

(** A quotient is within three error units of the exact one. *)
Lemma SFdiv_finite_rounds sx mx ex sy my ey :
  valid_binary (S754_finite sx mx ex) = true ->
  let v := IZR (Zpos mx) * bpow ex / (IZR (Zpos my) * bpow ey) in
  v < bpow 1023 ->
  let r := SF64div (S754_finite sx mx ex) (S754_finite sy my ey) in
  SFfinite r /\
  Rabs (SF2R r - sgn (xorb sx sy) * v) <= 3 * (u52 * v + eta).
Proof.
  intros Hvx v Hv r.
  destruct (valid_finite _ _ _ Hvx) as (Hd1 & _ & _).
  destruct (SFdiv_core_spec mx ex my ey Hd1)
    as (q & e' & rm & l & Hcore & Hq & Hrm & HE & Hq0 & Hval).
  fold v in Hval.
  unfold r, SF64div, SFdiv; rewrite Hcore.
  destruct (bra_spec (xorb sx sy) q e' l Hq HE) as (m3 & e3 & Hm3 & He3 & Hb & ->).
  destruct (bpow_E_bound0 q e' Hq Hq0) as [HbE Hov].
  set (E := fexp prec emax (Zdigits2 q + e')) in *.
  pose proof (bpow_pos e') as He'pos.
  assert (Hmy : 0 < IZR (Zpos my)) by (apply IZR_lt; lia).
  assert (Hfrac : 0 <= IZR rm / IZR (Zpos my) < 1).
  { destruct Hrm as [Hr0 Hr1]; apply IZR_le in Hr0; apply IZR_lt in Hr1.
    split.
    - apply Rmult_le_pos; [exact Hr0|left; apply Rinv_0_lt_compat, Hmy].
    - apply (Rmult_lt_reg_r (IZR (Zpos my))); [exact Hmy|].
      unfold Rdiv; rewrite Rmult_assoc, Rinv_l by lra; lra. }
  assert (Hq0R : 0 <= IZR q) by (apply IZR_le; lia).
  assert (Hqv : IZR q * bpow e' <= v) by (rewrite Hval; nra).
  assert (Hvq : v - IZR q * bpow e' <= bpow e') by (rewrite Hval; nra).
  assert (Hov' : (E + 1 <= emax - prec)%Z) by (apply Hov; lra).
  destruct (round_result_R (xorb sx sy) m3 e3 q e' E Hm3 HE ltac:(lia) Hb
              ltac:(lia)) as [Hf Herr].
  split; [exact Hf|].
  assert (HeE : bpow e' <= bpow E) by (apply bpow_le, HE).
  assert (Hs : Rabs (sgn (xorb sx sy) * IZR q * bpow e' - sgn (xorb sx sy) * v)
               <= bpow E).
  { replace (sgn (xorb sx sy) * IZR q * bpow e' - sgn (xorb sx sy) * v)
      with (sgn (xorb sx sy) * (IZR q * bpow e' - v)) by ring.
    rewrite Rabs_sgn, Rabs_left1 by lra. lra. }
  pose proof (Rabs_triang
                (SF2R (round_result (xorb sx sy) m3 e3)
                 - sgn (xorb sx sy) * IZR q * bpow e')
                (sgn (xorb sx sy) * IZR q * bpow e' - sgn (xorb sx sy) * v)) as Ht.
  replace (SF2R (round_result (xorb sx sy) m3 e3)
           - sgn (xorb sx sy) * IZR q * bpow e'
           + (sgn (xorb sx sy) * IZR q * bpow e' - sgn (xorb sx sy) * v))
    with (SF2R (round_result (xorb sx sy) m3 e3) - sgn (xorb sx sy) * v)
    in Ht by ring.
  assert (Hu : 0 <= u52) by (left; apply bpow_pos).
  nra.
Qed.

Lemma div_rounds x y :
  finite x -> finite y -> F2R y <> 0 ->
  Rabs (F2R x / F2R y) < bpow 1023 ->
  finite (x / y)%float /\
  Rabs (F2R (x / y)%float - F2R x / F2R y)
    <= 3 * (u52 * Rabs (F2R x / F2R y) + eta).
Proof.
  unfold finite, F2R; rewrite div_spec.
  pose proof (Prim2SF_valid x) as Vx.
  destruct (Prim2SF x) as [sx|sx| |sx mx ex], (Prim2SF y) as [sy|sy| |sy my ey];
    cbn [SFfinite]; try (intros [] ; fail); try (intros _ []; fail);
    intros _ _ Hy Hv; try (exfalso; apply Hy; reflexivity).
  - cbn [SF64div SFdiv SF2R SFfinite]; split; [exact I|].
    unfold Rdiv; rewrite Rmult_0_l, Rminus_0_r, Rabs_R0, Rmult_0_r.
    pose proof (bpow_pos (-1074)); unfold eta; lra.
  - set (v := IZR (Zpos mx) * bpow ex / (IZR (Zpos my) * bpow ey)).
    assert (Hmy : 0 < IZR (Zpos my) * bpow ey).
    { apply Rmult_lt_0_compat; [apply IZR_lt; lia|apply bpow_pos]. }
    assert (Hmx : 0 <= IZR (Zpos mx) * bpow ex).
    { apply Rmult_le_pos; [apply IZR_le; lia|left; apply bpow_pos]. }
    assert (Hv0 : 0 <= v).
    { unfold v; apply Rmult_le_pos; [exact Hmx|left; apply Rinv_0_lt_compat, Hmy]. }
    assert (Hq : SF2R (S754_finite sx mx ex) / SF2R (S754_finite sy my ey)
                 = sgn (xorb sx sy) * v).
    { assert (H1 : IZR (Zpos my) <> 0) by (apply not_0_IZR; lia).
      assert (H2 : bpow ey <> 0) by (pose proof (bpow_pos ey); lra).
      rewrite !SF2R_finite; unfold v.
      destruct sx, sy; cbn [xorb sgn]; field; auto. }
    rewrite Hq in Hv |- *.
    rewrite Rabs_sgn, (Rabs_pos_eq v) in Hv by exact Hv0.
    rewrite Rabs_sgn, (Rabs_pos_eq v) by exact Hv0.
    apply (SFdiv_finite_rounds sx mx ex sy my ey Vx Hv).
Qed.

(** ** Constants and comparisons *)




(** The error algebra of [i * (1 - a) + i * a] against [i]. *)
Lemma partition_algebra (X aA aT e1 e2 e3 e4 p12 n1 u eta : R) :
  0 <= X -> 0 <= aA -> 0 <= aT -> 0 <= n1 -> 0 <= p12 ->
  0 <= e1 -> 0 <= e2 -> 0 <= e3 -> 0 <= e4 ->
  0 <= u <= / 1024 -> 0 <= eta -> eta <= u / 1024 ->
  n1 <= 1 + aA ->
  e1 <= 2 * (u * n1 + eta) ->
  aT <= n1 + e1 ->
  e2 <= 2 * (u * (X * aT) + eta) ->
  e3 <= 2 * (u * (X * aA) + eta) ->
  p12 <= e2 + e3 + X * aT + X * aA ->
  e4 <= 2 * (u * p12 + eta) ->
  e4 + e2 + e3 + X * e1 <= 16 * u * (X * (1 + aA)) + 16 * eta.
Proof.
  intros HX HA HT Hn1 Hp He1 He2 He3 He4 [Hu0 Hu] Heta0 Heta Hn He1b HTb He2b He3b Hpb He4b.
  set (B := 1 + aA) in *.
  assert (HB : 1 <= B) by (unfold B; lra).
  assert (H1 : e1 <= 2 * u * B + 2 * eta) by nra.
  assert (H2 : aT <= (1 + / 128) * B) by nra.
  set (W := X * B).
  assert (HW : 0 <= W) by (unfold W; nra).
  assert (HXW : X <= W) by (unfold W; nra).
  assert (H3 : X * aT <= (1 + / 128) * W) by (unfold W; nra).
  assert (H3' : X * aA <= W) by (unfold W, B; nra).
  set (Z := u * W).
  assert (HZ : 0 <= Z) by (unfold Z; nra).
  assert (HZW : Z <= W / 1024) by (unfold Z; nra).
  assert (H4 : u * (X * aT) <= (1 + / 128) * Z) by (unfold Z; nra).
  assert (H4' : u * (X * aA) <= Z) by (unfold Z; nra).
  assert (H5 : e2 <= 2 * (1 + / 128) * Z + 2 * eta) by lra.
  assert (H6 : e3 <= 2 * Z + 2 * eta) by lra.
  assert (H7 : p12 <= (2 + / 64) * W + 5 * Z + 4 * eta) by lra.
  assert (H8 : u * p12 <= (2 + / 64) * Z + 5 * (u * Z) + 4 * (u * eta)) by (unfold Z; nra).
  assert (H9 : u * Z <= Z / 1024) by nra.
  assert (H10 : u * eta <= eta / 1024) by nra.
  assert (H11 : X * e1 <= 2 * Z + 2 * (X * eta)) by (unfold Z, W; nra).
  assert (H12 : X * eta <= Z / 1024) by (unfold Z; nra).
  assert (HG : 16 * u * W = 16 * Z) by (unfold Z; ring).
  rewrite HG; clearbody Z W B; lra.
Qed.

(** ** Constants *)

Lemma bpow_sum_le a b c : (a <= c)%Z -> (b <= c)%Z -> bpow a + bpow b <= bpow (c + 1).
Proof.
  intros Ha Hb; apply bpow_le in Ha, Hb.
  rewrite bpow_add; replace (bpow 1) with 2 by (unfold bpow; simpl; lra); lra.
Qed.

Lemma u52_small : 0 <= u52 <= / 1024.
Proof.
  unfold u52; split; [left; apply bpow_pos|].
  replace (/ 1024) with (bpow (-10)) by (unfold bpow; simpl; lra).
  apply bpow_le; lia.
Qed.

Lemma eta_small : 0 <= eta /\ eta <= u52 / 1024.
Proof.
  unfold eta, u52; split; [left; apply bpow_pos|].
  replace (bpow (-52) / 1024) with (bpow (-62))
    by (replace (-62)%Z with (-52 + -10)%Z by lia; rewrite bpow_add;
        unfold bpow at 2; simpl; lra).
  apply bpow_le; lia.
Qed.

Lemma F2R_pow2 (c : float) (k : Z) :
  Prim2SF c = S754_finite false 4503599627370496 (k - 52) ->
  finite c /\ F2R c = bpow k.
Proof.
  intros H; unfold finite, F2R; rewrite H; split; [exact I|].
  cbn [SF2R]. change 4503599627370496%Z with (2 ^ 52)%Z.
  rewrite bpow_IZR, <- bpow_add by lia. f_equal; lia.
Qed.

Lemma F2R_one : finite 1%float /\ F2R 1%float = 1.
Proof. apply (F2R_pow2 1%float 0); reflexivity. Qed.

(** ** A quarter of a bounded number *)

Lemma quarter_bound (s : float) :
  (abs s <=? 0x1p980)%float = true ->
  finite (s / 4)%float /\ Rabs (F2R (s / 4)%float) <= bpow 980.
Proof.
  intros Hs.
  destruct (F2R_pow2 0x1p980%float 980 eq_refl) as [Fc Ec].
  destruct (F2R_pow2 4%float 2 eq_refl) as [F4 E4].
  replace (bpow 2) with 4 in E4 by (unfold bpow; simpl; lra).
  destruct (abs_leb_R s _ Fc Hs) as [Fs HS]; rewrite Ec in HS.
  pose proof u52_small as Hu; destruct eta_small as [Heta0 Heta].
  pose proof (Rabs_pos (F2R s)) as HS0.
  assert (Hb : bpow 980 = 4 * bpow 978).
  { replace 980%Z with (2 + 978)%Z by lia; rewrite bpow_add.
    replace (bpow 2) with 4 by (unfold bpow; simpl; lra); reflexivity. }
  pose proof (bpow_lt 978 1023 ltac:(lia)) as Hbig.
  assert (H1 : 1 <= bpow 978) by (apply bpow_ge_1; lia).
  assert (Hq : Rabs (F2R s / F2R 4%float) <= bpow 978).
  { rewrite E4; unfold Rdiv; rewrite Rabs_mult, (Rabs_pos_eq (/ 4)) by lra. lra. }
  destruct (div_rounds s 4%float Fs F4 ltac:(lra) ltac:(lra)) as [Fq Eq].
  split; [exact Fq|].
  pose proof (Rabs_triang (F2R (s / 4)%float - F2R s / F2R 4%float)
                (F2R s / F2R 4%float)) as Ht.
  replace (F2R (s / 4)%float - F2R s / F2R 4%float + F2R s / F2R 4%float)
    with (F2R (s / 4)%float) in Ht by ring.
  pose proof (Rabs_pos (F2R s / F2R 4%float)).
  nra.
Qed.

(** ** The partition [i * (1 - a) + i * a] *)

Lemma partition_error (i a : float) :
  finite a -> Rabs (F2R a) <= bpow 20 ->
  finite i -> Rabs (F2R i) <= bpow 980 ->
  finite (i * (1 - a) + i * a)%float /\
  Rabs (F2R (i * (1 - a) + i * a)%float - F2R i)
    <= bpow (-48) * (Rabs (F2R i) * (1 + Rabs (F2R a))) + bpow (-1070).
Proof.
  intros Fa HA Fi HI.
  destruct F2R_one as [F1 E1].
  pose proof u52_small as Hu; destruct eta_small as [Heta0 Heta].
  set (A := F2R a) in *; set (I := F2R i) in *.
  pose proof (Rabs_pos A) as HA0; pose proof (Rabs_pos I) as HI0.
  assert (Hb20 : 1 <= bpow 20) by (apply bpow_ge_1; lia).
  (* t = 1 - a *)
  assert (Hn1 : Rabs (1 - A) <= 1 + Rabs A).
  { replace (1 - A) with (1 + - A) by lra.
    eapply Rle_trans; [apply Rabs_triang|].
    rewrite Rabs_Ropp, Rabs_R1; lra. }
  assert (Hn1' : Rabs (1 - A) <= bpow 21).
  { pose proof (bpow_sum_le 20 20 20 ltac:(lia) ltac:(lia)) as Hs.
    change (20 + 1)%Z with 21%Z in Hs; lra. }
  destruct (sub_rounds 1 a F1 Fa) as [Ft Het].
  { rewrite E1; fold A. pose proof (bpow_lt 21 1023 ltac:(lia)); lra. }
  rewrite E1 in Het; fold A in Het.
  fold (finite (1 - a)%float) in Ft; fold (F2R (1 - a)%float) in Het.
  set (T := F2R (1 - a)%float) in *.
  assert (HT : Rabs T <= Rabs (1 - A) + Rabs (T - (1 - A))).
  { replace T with ((1 - A) + (T - (1 - A))) at 1 by lra. apply Rabs_triang. }
  assert (HT' : Rabs T <= bpow 22).
  { pose proof (bpow_sum_le 21 21 21 ltac:(lia) ltac:(lia)) as Hs.
    change (21 + 1)%Z with 22%Z in Hs.
    assert (1 <= bpow 21) by (apply bpow_ge_1; lia).
    assert (u52 * Rabs (1 - A) <= Rabs (1 - A) / 1024)
      by (pose proof (Rabs_pos (1 - A)); nra).
    lra. }
  pose proof (Rabs_pos T) as HT0.
  (* p1 = i * t *)
  assert (HIT : Rabs (I * T) <= bpow 1002).
  { rewrite Rabs_mult. replace 1002%Z with (980 + 22)%Z by lia.
    rewrite bpow_add. pose proof (bpow_pos 980); pose proof (bpow_pos 22); nra. }
  destruct (mul_rounds i (1 - a)%float Fi Ft) as [Fp1 Hep1].
  { fold I T. pose proof (bpow_lt 1002 1023 ltac:(lia)); lra. }
  fold I T in Hep1.
  fold (finite (i * (1 - a))%float) in Fp1; fold (F2R (i * (1 - a))%float) in Hep1.
  set (P1 := F2R (i * (1 - a))%float) in *.
  (* p2 = i * a *)
  assert (HIA : Rabs (I * A) <= bpow 1002).
  { rewrite Rabs_mult.
    assert (bpow 980 * bpow 20 <= bpow 1002)
      by (rewrite <- bpow_add; apply bpow_le; lia).
    pose proof (bpow_pos 980); nra. }
  destruct (mul_rounds i a Fi Fa) as [Fp2 Hep2].
  { fold I A. pose proof (bpow_lt 1002 1023 ltac:(lia)); lra. }
  fold I A in Hep2.
  fold (finite (i * a)%float) in Fp2; fold (F2R (i * a)%float) in Hep2.
  set (P2 := F2R (i * a)%float) in *.
  (* s = p1 + p2 *)
  assert (Hp12 : Rabs (P1 + P2)
                 <= Rabs (P1 - I * T) + Rabs (P2 - I * A)
                    + Rabs I * Rabs T + Rabs I * Rabs A).
  { replace (P1 + P2) with ((P1 - I * T) + (P2 - I * A) + I * T + I * A) by lra.
    rewrite <- !Rabs_mult.
    eapply Rle_trans; [apply Rabs_triang|].
    apply Rplus_le_compat_r.
    eapply Rle_trans; [apply Rabs_triang|].
    apply Rplus_le_compat_r. apply Rabs_triang. }
  assert (Hp12' : Rabs (P1 + P2) < bpow 1023).
  { rewrite <- !Rabs_mult in Hp12.
    assert (Hb : bpow 1002 + bpow 1002 <= bpow 1003)
      by (apply (bpow_sum_le 1002 1002 1002); lia).
    assert (eta <= bpow 1002) by (unfold eta; apply bpow_le; lia).
    pose proof (bpow_pos 1002).
    assert (Hb' : 8 * bpow 1003 <= bpow 1006).
    { replace 1006%Z with (3 + 1003)%Z by lia; rewrite bpow_add.
      replace (bpow 3) with 8 by (unfold bpow; simpl; lra); lra. }
    pose proof (bpow_lt 1006 1023 ltac:(lia)). nra. }
  destruct (add_rounds _ _ Fp1 Fp2 Hp12') as [Fs Hes].
  fold P1 P2 in Hes.
  fold (finite (i * (1 - a) + i * a)%float) in Fs.
  fold (F2R (i * (1 - a) + i * a)%float) in Hes.
  set (S := F2R (i * (1 - a) + i * a)%float) in *.
  split; [exact Fs|].
  (* the algebra *)
  assert (Htri : Rabs (S - I)
                 <= Rabs (S - (P1 + P2)) + Rabs (P1 - I * T) + Rabs (P2 - I * A)
                    + Rabs I * Rabs (T - (1 - A))).
  { replace (S - I)
      with ((S - (P1 + P2)) + (P1 - I * T) + (P2 - I * A) + I * (T - (1 - A)))
      by ring.
    rewrite <- Rabs_mult.
    eapply Rle_trans; [apply Rabs_triang|].
    apply Rplus_le_compat_r.
    eapply Rle_trans; [apply Rabs_triang|].
    apply Rplus_le_compat_r. apply Rabs_triang. }
  rewrite Rabs_mult in Hep1, Hep2.
  pose proof (partition_algebra (Rabs I) (Rabs A) (Rabs T)
                (Rabs (T - (1 - A))) (Rabs (P1 - I * T)) (Rabs (P2 - I * A))
                (Rabs (S - (P1 + P2))) (Rabs (P1 + P2)) (Rabs (1 - A)) u52 eta
                HI0 HA0 HT0 (Rabs_pos _) (Rabs_pos _) (Rabs_pos _) (Rabs_pos _)
                (Rabs_pos _) (Rabs_pos _) Hu Heta0 Heta Hn1 Het HT Hep1 Hep2
                ltac:(lra) Hes) as Halg.
  assert (H16u : 16 * u52 = bpow (-48)).
  { unfold u52; replace (-48)%Z with (4 + -52)%Z by lia; rewrite bpow_add.
    replace (bpow 4) with 16 by (unfold bpow; simpl; lra); reflexivity. }
  assert (H16e : 16 * eta = bpow (-1070)).
  { unfold eta; replace (-1070)%Z with (4 + -1074)%Z by lia; rewrite bpow_add.
    replace (bpow 4) with 16 by (unfold bpow; simpl; lra); reflexivity. }
  rewrite <- H16u, <- H16e. lra.
Qed.

End ExactFacts.

(* ===================================================================== *)
(** * [Math.max], [Math.min] and the reference library                    *)
(* ===================================================================== *)

Section MathFacts.

(** [Math.min(c, x)] for a constant [c] that is neither NaN, nor a
    zero, nor [+Infinity]. *)
Lemma Math_min_const c x :
  is_nan c = false -> (c =? 0) = false -> (c <? infinity) = true ->
  Math_min c x = if is_nan x then nan else if x <? c then x else c.
Proof.
  intros Hn Hz Hi.
  unfold Math_min, Math_min_list, isNaN; cbn [existsb fold_left].
  rewrite Hn; cbn [orb]; rewrite orb_false_r.
  destruct (is_nan x); trivial.
  unfold min_step at 2; unfold is_neg_zero at 1; rewrite Hz, Hi; cbn [andb].
  unfold min_step, is_pos_zero; rewrite Hz; cbn [andb].
  rewrite andb_false_r; reflexivity.
Qed.

(** [Math.max(c, x)] for a constant [c] that is neither NaN, nor a
    zero, nor [-Infinity]. *)
Lemma Math_max_const c x :
  is_nan c = false -> (c =? 0) = false -> (neg_infinity <? c) = true ->
  Math_max c x = if is_nan x then nan else if c <? x then x else c.
Proof.
  intros Hn Hz Hi.
  unfold Math_max, Math_max_list, isNaN; cbn [existsb fold_left].
  rewrite Hn; cbn [orb]; rewrite orb_false_r.
  destruct (is_nan x); trivial.
  unfold max_step at 2; unfold is_pos_zero at 1; rewrite Hz, Hi; cbn [andb].
  unfold max_step, is_neg_zero; rewrite Hz; cbn [andb].
  rewrite andb_false_r; reflexivity.
Qed.

Lemma Math_min_07 x :
  Math_min 0.7 x = if is_nan x then nan else if x <? 0.7 then x else 0.7.
Proof. apply Math_min_const; reflexivity. Qed.

Lemma Math_max_05 x :
  Math_max 0.5 x = if is_nan x then nan else if 0.5 <? x then x else 0.5.
Proof. apply Math_max_const; reflexivity. Qed.

(** The clamp of the code is NaN exactly on NaN. *)
Lemma clamp_code_nan x : is_nan x = true -> Math_max 0.5 (Math_min 0.7 x) = nan.
Proof.
  intros H; rewrite Math_min_07, H, Math_max_05; reflexivity.
Qed.

(** Off NaN it lands in [[0.5, 0.7]]. *)
Lemma clamp_code_range x :
  is_nan x = false -> in_range 0.5 0.7 (Math_max 0.5 (Math_min 0.7 x)) = true.
Proof.
  intros H; rewrite Math_min_07, H; unfold in_range.
  destruct (x <? 0.7) eqn:Hhi.
  - rewrite Math_max_05, H.
    destruct (0.5 <? x) eqn:Hlo.
    + rewrite (ltb_leb _ _ Hlo), (ltb_leb _ _ Hhi); reflexivity.
    + reflexivity.
  - reflexivity.
Qed.

(** The two nested calls of the code are the specification's clamp. *)
Lemma clamp_code_spec x : Math_max 0.5 (Math_min 0.7 x) = Spec.clamp x 0.5 0.7.
Proof.
  unfold Spec.clamp; rewrite Math_min_07.
  destruct (is_nan x) eqn:Hn.
  - rewrite (is_nan_eq x Hn); reflexivity.
  - destruct (x <? 0.5) eqn:Hlo.
    + assert (Hhi : (x <? 0.7) = true) by (apply (ltb_trans x 0.5 0.7); trivial).
      rewrite Hhi, Math_max_05, Hn, (ltb_asym _ _ Hlo); reflexivity.
    + destruct (0.7 <? x) eqn:Hhi.
      * rewrite (ltb_asym _ _ Hhi); reflexivity.
      * destruct (x <? 0.7) eqn:Hhi'.
        -- rewrite Math_max_05, Hn.
           destruct (0.5 <? x) eqn:Hlo'; trivial.
           symmetry; apply eqb_eq_nonzero; [reflexivity|].
           apply ltb_total; trivial.
        -- symmetry; apply eqb_eq_nonzero; [reflexivity|].
           apply ltb_total; trivial.
Qed.

(** The reference library conforms. *)
Lemma reference_conforming : Conforming RefMath.lib.
Proof.
  constructor; cbn [Math_log Math_pow RefMath.lib].
  - reflexivity.
  - intros x H; unfold RefMath.log; rewrite H; reflexivity.
  - intros x H; unfold RefMath.log; rewrite H.
    destruct (x =? 0); [reflexivity|].
    destruct (x =? infinity); [reflexivity|].
    destruct (x =? 1); [reflexivity|].
    cbv zeta; destruct (is_nan (RefMath.log_finite x)) eqn:E; trivial.
  - reflexivity.
  - reflexivity.
Qed.

End MathFacts.

(* ===================================================================== *)
(** * [ClimateModel]: what [step] and [updateParams] do                   *)
(* ===================================================================== *)

Section StepFacts.

Context {M : MathLib}.

(** Running the body of [step]: the snapshot and the object after, in
    terms of the values of its [const]s. *)
Lemma step_snapshot_eq dt this :
  step_snapshot dt this =
  {| temp := temperature this + tempChange this dt;
     netEnergy := netEnergy_of this;
     absorbed := absorbedSolar this;
     reflected := incomingSolar this * albedo this;
     outgoing := outgoingRad this;
     incoming := incomingSolar this |}.
Proof. reflexivity. Qed.

Lemma step_state_eq dt this :
  step_state dt this =
  set_temperature (temperature this + tempChange this dt) this.
Proof. reflexivity. Qed.

(** [updateParams] and [step] leave the two constants alone. *)
Lemma updateParams_constants S params this :
  constants_intact this ->
  constants_intact (updateParams_state S params this).
Proof.
  unfold constants_intact, updateParams_state, updateParams.
  destruct params as [c a s f]; cbn [p_co2 p_albedo p_solar p_forest].
  destruct (is_defined c), (is_defined a), (is_defined s), (is_defined f);
    intros H; exact H.
Qed.

Lemma step_constants dt this :
  constants_intact this -> constants_intact (step_state dt this).
Proof. intros H; exact H. Qed.

Lemma reachable_constants S this :
  reachable S this -> constants_intact this.
Proof.
  induction 1 as [|params this _ IH|dt this _ IH].
  - split; reflexivity.
  - apply updateParams_constants, IH.
  - apply step_constants, IH.
Qed.

(** ** The forcing and the emissivity *)

Lemma forcing_not_nan {HM : Conforming M} this :
  constants_intact this -> (0 <=? co2 this) = true ->
  is_nan (forcingCO2 this) = false.
Proof.
  intros [_ Hp] Hc; unfold forcingCO2; rewrite Hp.
  apply mul_const_l; [do 3 eexists; reflexivity|].
  apply log_defined, div_const_nonneg; trivial.
  do 2 eexists; reflexivity.
Qed.

Lemma forcing_nan {HM : Conforming M} this :
  constants_intact this -> (0 <=? co2 this / 280) = false ->
  forcingCO2 this = nan.
Proof.
  intros [_ Hp] Hc; unfold forcingCO2; rewrite Hp, (log_undefined _ Hc).
  apply mul_nan_r.
Qed.

Lemma emissivity0_not_nan this :
  is_nan (forcingCO2 this) = false -> is_nan (emissivity0 this) = false.
Proof.
  intros H; unfold emissivity0.
  apply sub_const_l; [do 3 eexists; reflexivity|].
  apply mul_const_r; [do 3 eexists; reflexivity|exact H].
Qed.

Lemma emissivity_of_forcing this :
  is_nan (forcingCO2 this) = false ->
  in_range 0.5 0.7 (emissivity this) = true.
Proof.
  intros H; apply clamp_code_range, emissivity0_not_nan, H.
Qed.

Lemma emissivity_nan this :
  forcingCO2 this = nan -> emissivity this = nan.
Proof.
  intros H; unfold emissivity; apply clamp_code_nan.
  unfold emissivity0; rewrite H; reflexivity.
Qed.

(** ** Zero net energy *)

(** A NaN temperature makes the net energy NaN. *)
Lemma net_nan_of_temperature {HM : Conforming M} this :
  is_nan (temperature this) = true -> netEnergy_of this = nan.
Proof.
  intros H; unfold netEnergy_of, outgoingRad, currentTempK.
  rewrite (is_nan_eq _ H), add_nan_l, pow4_nan, mul_nan_r.
  apply sub_nan_r.
Qed.

Lemma zero_net_temperature {HM : Conforming M} this :
  strict_eq (netEnergy_of this) 0 = true -> is_nan (temperature this) = false.
Proof.
  intros H; destruct (is_nan (temperature this)) eqn:E; trivial.
  rewrite (net_nan_of_temperature this E) in H; discriminate.
Qed.

Lemma tempChange_zero this dt :
  strict_eq (netEnergy_of this) 0 = true -> is_finite dt = true ->
  (tempChange this dt =? 0) = true.
Proof.
  intros H Hdt; unfold tempChange.
  apply mul_zero_finite; trivial.
  apply div_zero_const; trivial.
  do 3 eexists; reflexivity.
Qed.

(** The net energy reads the temperature through [currentTempK] only. *)
Lemma netEnergy_set_temperature this t :
  t + 273.15 = temperature this + 273.15 ->
  netEnergy_of (set_temperature t this) = netEnergy_of this.
Proof.
  intros H; unfold netEnergy_of, outgoingRad, currentTempK; cbn; rewrite H.
  reflexivity.
Qed.

Lemma zero_net_step {HM : Conforming M} this dt :
  strict_eq (netEnergy_of this) 0 = true -> is_finite dt = true ->
  strict_eq (temperature (step_state dt this)) (temperature this) = true /\
  netEnergy_of (step_state dt this) = netEnergy_of this.
Proof.
  intros H Hdt; rewrite step_state_eq.
  pose proof (tempChange_zero this dt H Hdt) as Hz.
  split.
  - apply add_zero_r_eqb; trivial. apply zero_net_temperature, H.
  - apply netEnergy_set_temperature.
    apply add_zero_r_then_const; trivial.
    do 3 eexists; reflexivity.
Qed.

Lemma strict_eq_trans a b c :
  strict_eq a b = true -> strict_eq b c = true -> strict_eq a c = true.
Proof.
  unfold strict_eq; rewrite !FloatAxioms.eqb_spec; intros H1 H2.
  destruct (SFeqb_eq _ _ H1) as [E|(s & s' & E & E')].
  - rewrite E; exact H2.
  - destruct (SFeqb_eq _ _ H2) as [E2|(s2 & s2' & E2 & E2')].
    + rewrite E, <- E2, E'; reflexivity.
    + rewrite E, E2'; reflexivity.
Qed.

(** The frozen planet has zero net energy with every conforming
    library, and an infinite [dt] turns its temperature into NaN. *)
Lemma frozen_net_zero {HM : Conforming M} :
  netEnergy_of Examples.frozen = 0.
Proof.
  unfold netEnergy_of, outgoingRad, emissivity, emissivity0, forcingCO2,
    currentTempK, absorbedSolar, incomingSolar; cbn.
  change (280 / 280) with 1; rewrite log_one.
  change (-273.15 + 273.15) with 0; rewrite pow4_zero.
  reflexivity.
Qed.

Lemma frozen_step_infinity {HM : Conforming M} :
  temperature (step_state infinity Examples.frozen) = nan.
Proof.
  rewrite step_state_eq; unfold tempChange; rewrite frozen_net_zero.
  reflexivity.
Qed.

End StepFacts.

(* ===================================================================== *)
(** * The claims about [ClimateModel]                                     *)
(* ===================================================================== *)

(** C1. For every object whose constants are the constructor's and every
    [dt], [step(dt)] computes what items (a) to (g) of the specification
    say: incoming = solarIntensity/4, absorbed = incoming*(1-albedo),
    forcing = 5.35*ln(co2/280), emissivity = clamp(0.61 - forcing*0.005,
    0.5, 0.7), outgoing = emissivity*sigma*(temperature+273.15)^4 with
    sigma = 5.67e-8, net = absorbed - outgoing; the temperature becomes
    temperature + (net/50)*dt and nothing else is assigned; the snapshot
    carries the new temperature, net, absorbed, reflected (incoming*albedo),
    outgoing and incoming. *)
Theorem step_computes_balance {M : MathLib} (this : ClimateModel) (dt : number) :
  constants_intact this ->
  let b := Spec.balance (co2 this) (albedo this) (solarIntensity this)
             (temperature this) dt in
  step_snapshot dt this =
    {| temp := Spec.b_temperature b;
       netEnergy := Spec.b_net b;
       absorbed := Spec.b_absorbed b;
       reflected := Spec.b_incoming b * albedo this;
       outgoing := Spec.b_outgoing b;
       incoming := Spec.b_incoming b |} /\
  step_state dt this = set_temperature (Spec.b_temperature b) this /\
  forcingCO2 this = Spec.b_forcing b /\
  emissivity this = Spec.b_emissivity b.
Proof.
  intros [Hs Hp] b.
  assert (Hf : forcingCO2 this = Spec.b_forcing b).
  { unfold forcingCO2; rewrite Hp; reflexivity. }
  assert (He : emissivity this = Spec.b_emissivity b).
  { unfold emissivity, emissivity0; rewrite Hf; apply clamp_code_spec. }
  assert (Ho : outgoingRad this = Spec.b_outgoing b).
  { unfold outgoingRad; rewrite He, Hs; reflexivity. }
  assert (Hn : netEnergy_of this = Spec.b_net b).
  { unfold netEnergy_of; rewrite Ho; reflexivity. }
  assert (Ht : temperature this + tempChange this dt = Spec.b_temperature b).
  { unfold tempChange; rewrite Hn; reflexivity. }
  rewrite step_snapshot_eq, step_state_eq, Ht, Hn, Ho.
  repeat split; trivial.
Qed.

Lemma step_computes_balance_witness :
  constants_intact constructor /\
  temp (step_snapshot (M := RefMath.lib) 0.5 constructor) =
  Spec.b_temperature
    (Spec.balance (M := RefMath.lib) 400 0.3 1361 15.0 0.5).
Proof.
  split; [split; reflexivity|].
  destruct (step_computes_balance (M := RefMath.lib) constructor 0.5) as [H _].
  - split; reflexivity.
  - rewrite H; reflexivity.
Defined.

(** C2, as amended. For every co2 that is neither NaN nor below zero
    (zero and +Infinity included, where the forcing is infinite) the
    effective emissivity computed inside [step] lies within [0.5, 0.7]. *)
Theorem emissivity_in_range {M : MathLib} {HM : Conforming M}
  (this : ClimateModel) :
  constants_intact this -> (0 <=? co2 this) = true ->
  in_range 0.5 0.7 (emissivity this) = true.
Proof.
  intros Hc Hco2; apply emissivity_of_forcing, forcing_not_nan; trivial.
Qed.

Lemma emissivity_in_range_witness :
  in_range 0.5 0.7 (emissivity (M := RefMath.lib) (set_co2 0 constructor)) = true.
Proof.
  apply (emissivity_in_range (HM := reference_conforming)).
  - split; reflexivity.
  - reflexivity.
Defined.

(** C2, as stated, fails: with co2 = -1 the forcing is NaN, and so is the
    emissivity, which is then not within [0.5, 0.7]. *)
Lemma emissivity_in_range_counterexample :
  ~ (forall (M : MathLib), Conforming M ->
     forall this : ClimateModel, constants_intact this ->
       in_range 0.5 0.7 (emissivity this) = true).
Proof.
  intros H.
  specialize (H RefMath.lib reference_conforming Examples.negative_co2).
  assert (E : emissivity (M := RefMath.lib) Examples.negative_co2 = nan).
  { apply emissivity_nan, (forcing_nan (HM := reference_conforming)).
    - split; reflexivity.
    - reflexivity. }
  rewrite E in H; discriminate H; split; reflexivity.
Qed.

(** C3. [updateParams] overwrites each provided field (a property that
    is not [undefined]) with [Number] of the given value and keeps the
    field otherwise; a number is stored as it is, whatever its range (a
    negative albedo included); temperature, the two constants and
    targetTemperature are never assigned. *)
Theorem updateParams_overwrites (StringToNumber : String.string -> number)
  (params : Params) (this : ClimateModel) :
  let this' := updateParams_state StringToNumber params this in
  co2 this' = (if is_defined (p_co2 params)
               then Number StringToNumber (p_co2 params) else co2 this) /\
  albedo this' = (if is_defined (p_albedo params)
                  then Number StringToNumber (p_albedo params) else albedo this) /\
  solarIntensity this' = (if is_defined (p_solar params)
                          then Number StringToNumber (p_solar params)
                          else solarIntensity this) /\
  forestCover this' = (if is_defined (p_forest params)
                       then Number StringToNumber (p_forest params)
                       else forestCover this) /\
  temperature this' = temperature this /\
  sigma this' = sigma this /\
  preIndustrialCO2 this' = preIndustrialCO2 this /\
  targetTemperature this' = targetTemperature this /\
  (forall (x : number) (c s f : value),
     albedo (updateParams_state StringToNumber
               (mkParams c (VNumber x) s f) this) = x).
Proof.
  destruct params as [c a s f]; cbn [p_co2 p_albedo p_solar p_forest].
  unfold updateParams_state, updateParams;
    cbn [p_co2 p_albedo p_solar p_forest].
  repeat split.
  1-8: destruct (is_defined c), (is_defined a), (is_defined s), (is_defined f);
    reflexivity.
  intros x c' s' f'; destruct (is_defined c'), (is_defined s'), (is_defined f');
    reflexivity.
Qed.

(** C4, as amended. For every object whose computed net energy is zero
    and every sequence of finite time steps (neither NaN nor infinite),
    stepping leaves the temperature unchanged ([===] to what it was) and
    the net energy zero; a single [step(dt)] is the sequence [[dt]]. *)
Theorem zero_net_holds_temperature {M : MathLib} {HM : Conforming M}
  (this : ClimateModel) (dts : list number) :
  strict_eq (netEnergy_of this) 0 = true ->
  Forall (fun dt => is_finite dt = true) dts ->
  strict_eq (temperature (run_steps dts this)) (temperature this) = true /\
  netEnergy_of (run_steps dts this) = netEnergy_of this.
Proof.
  intros Hnet Hdts; revert this Hnet.
  induction Hdts as [|dt dts Hdt _ IH]; intros this Hnet.
  - split; [|reflexivity].
    apply eqb_refl, zero_net_temperature, Hnet.
  - destruct (zero_net_step this dt Hnet Hdt) as [Ht Hn].
    cbn [run_steps fold_left].
    destruct (IH (step_state dt this)) as [Ht' Hn'].
    + rewrite Hn; exact Hnet.
    + split.
      * exact (strict_eq_trans _ _ _ Ht' Ht).
      * unfold run_steps in Hn'; rewrite Hn'; exact Hn.
Qed.

Lemma zero_net_holds_temperature_witness :
  strict_eq
    (temperature (run_steps (M := RefMath.lib) [0.5; 0.1; 0.5] Examples.frozen))
    (temperature Examples.frozen) = true.
Proof.
  apply (zero_net_holds_temperature (HM := reference_conforming)).
  - rewrite (frozen_net_zero (HM := reference_conforming)); reflexivity.
  - repeat constructor.
Defined.

(** C4, as stated, fails for a time step that is not finite: the frozen
    planet has zero net energy, and [step(Infinity)] makes its
    temperature NaN. *)
Lemma zero_net_holds_temperature_counterexample :
  ~ (forall (M : MathLib), Conforming M ->
     forall (this : ClimateModel) (dt : number),
       strict_eq (netEnergy_of this) 0 = true ->
       strict_eq (temperature (step_state dt this)) (temperature this) = true).
Proof.
  intros H.
  specialize (H RefMath.lib reference_conforming Examples.frozen infinity).
  rewrite (frozen_step_infinity (HM := reference_conforming)) in H.
  rewrite (frozen_net_zero (HM := reference_conforming)) in H.
  discriminate H; reflexivity.
Qed.

(** C5. When co2 = 280, the pre-industrial baseline that the model keeps
    in preIndustrialCO2, the CO2 forcing computed in [step] is exactly
    [+0]. *)
Theorem forcing_zero_at_baseline {M : MathLib} {HM : Conforming M}
  (this : ClimateModel) :
  constants_intact this -> co2 this = 280 -> forcingCO2 this = 0.
Proof.
  intros [_ Hp] Hc; unfold forcingCO2; rewrite Hp, Hc.
  change (280 / 280) with 1; rewrite log_one; reflexivity.
Qed.

Lemma forcing_zero_at_baseline_witness :
  forcingCO2 (M := RefMath.lib) Examples.baseline = 0.
Proof.
  apply (forcing_zero_at_baseline (HM := reference_conforming)).
  - split; reflexivity.
  - reflexivity.
Defined.

(** C6. [step] is deterministic: two calls on objects built by the class
    that hold the same state (co2, albedo, solarIntensity, forestCover,
    temperature), with the same dt, return the same snapshot and leave
    the same state. *)
Theorem step_deterministic {M : MathLib} (s1 s2 : ClimateModel)
  (dt1 dt2 : number) :
  constants_intact s1 -> constants_intact s2 ->
  same_state s1 s2 -> dt1 = dt2 ->
  step_snapshot dt1 s1 = step_snapshot dt2 s2 /\
  same_state (step_state dt1 s1) (step_state dt2 s2).
Proof.
  destruct s1 as [c1 a1 so1 f1 sg1 p1 t1 tt1], s2 as [c2 a2 so2 f2 sg2 p2 t2 tt2].
  unfold constants_intact, same_state; cbn.
  intros [-> ->] [-> ->] (-> & -> & -> & -> & ->) ->.
  repeat split.
Qed.

Lemma step_deterministic_witness :
  step_snapshot (M := RefMath.lib) 0.5 constructor =
  step_snapshot (M := RefMath.lib) 0.5
    (mkClimateModel 400 0.3 1361 30 5.67e-8 280 15.0 99).
Proof.
  apply (step_deterministic (M := RefMath.lib)).
  - split; reflexivity.
  - split; reflexivity.
  - repeat split.
  - reflexivity.
Defined.

(** C7. forestCover does not influence the physics: for two objects that
    differ in nothing but forestCover and any dt, [step(dt)] returns the
    same snapshot and produces the same temperature. *)
Theorem forestCover_not_physics {M : MathLib} (s1 s2 : ClimateModel)
  (dt : number) :
  same_but_forestCover s1 s2 ->
  step_snapshot dt s1 = step_snapshot dt s2 /\
  temperature (step_state dt s1) = temperature (step_state dt s2).
Proof.
  destruct s1 as [c1 a1 so1 f1 sg1 p1 t1 tt1], s2 as [c2 a2 so2 f2 sg2 p2 t2 tt2].
  unfold same_but_forestCover; cbn.
  intros (-> & -> & -> & -> & -> & -> & ->).
  split; reflexivity.
Qed.

Lemma forestCover_not_physics_witness :
  step_snapshot (M := RefMath.lib) 0.5 constructor =
  step_snapshot (M := RefMath.lib) 0.5 (set_forestCover 90 constructor).
Proof.
  apply (forestCover_not_physics (M := RefMath.lib)).
  repeat split.
Defined.

(** C8. [step(dt)] assigns the temperature only: co2, albedo,
    solarIntensity and forestCover (and the constants and
    targetTemperature) are after the call what they were before. *)
Theorem step_frame {M : MathLib} (this : ClimateModel) (dt : number) :
  co2 (step_state dt this) = co2 this /\
  albedo (step_state dt this) = albedo this /\
  solarIntensity (step_state dt this) = solarIntensity this /\
  forestCover (step_state dt this) = forestCover this /\
  sigma (step_state dt this) = sigma this /\
  preIndustrialCO2 (step_state dt this) = preIndustrialCO2 this /\
  targetTemperature (step_state dt this) = targetTemperature this.
Proof.
  rewrite step_state_eq; repeat split.
Qed.

(** At the two ends albedo = 0 and albedo = 1 one of the two products is
    a zero and the other is incoming itself, so the sum is exact. *)
Lemma partition_exact_at_ends {M : MathLib} (this : ClimateModel) (dt : number) :
  let snap := step_snapshot dt this in
  is_finite (incoming snap) = true ->
  strict_eq (albedo this) 0 || strict_eq (albedo this) 1 = true ->
  strict_eq (absorbed snap + reflected snap) (incoming snap) = true.
Proof.
  rewrite step_snapshot_eq; cbn [incoming absorbed reflected].
  intros Hi Ha; unfold absorbedSolar, strict_eq in *.
  pose proof (is_finite_not_nan _ Hi) as Hn.
  apply orb_true_iff in Ha; destruct Ha as [Ha|Ha].
  - rewrite (sub_one_zero _ Ha), mul_one_r.
    apply add_zero_r_eqb; trivial.
    apply mul_finite_zero; trivial.
  - apply eqb_eq_nonzero in Ha; [|reflexivity].
    rewrite Ha, mul_one_r; change (1 - 1) with 0.
    apply add_zero_l_eqb; trivial.
    apply mul_finite_zero; trivial.
Qed.

Module Partition.

Import Reals.
Import Exact ExactFacts.

(** C10, as amended. In every snapshot returned by [step] from a state
    whose albedo is at most 2^20 and whose solarIntensity is at most
    2^980 in magnitude, absorbed + reflected (the doubles
    incoming*(1-albedo) and incoming*albedo, added in double precision)
    is a finite number and equals incoming up to the rounding of the
    four operations:
    |absorbed + reflected - incoming|
      <= 2^-48 |incoming| (1 + |albedo|) + 2^-1070,
    the values being read as real numbers. Exact equality fails in
    general, as the counterexample below shows. *)
Theorem snapshot_partition_error {M : MathLib} (this : ClimateModel) (dt : number) :
  (abs (albedo this) <=? 0x1p20)%float = true ->
  (abs (solarIntensity this) <=? 0x1p980)%float = true ->
  let snap := step_snapshot dt this in
  is_finite (absorbed snap + reflected snap) = true /\
  (Rabs (F2R (absorbed snap + reflected snap) - F2R (incoming snap))
     <= bpow (-48) * (Rabs (F2R (incoming snap)) * (1 + Rabs (F2R (albedo this))))
        + bpow (-1070))%R.
Proof.
  intros Ha Hs.
  rewrite step_snapshot_eq; cbn [incoming absorbed reflected].
  unfold absorbedSolar, incomingSolar.
  destruct (F2R_pow2 0x1p20%float 20 eq_refl) as [Fc20 Ec20].
  destruct (abs_leb_R (albedo this) _ Fc20 Ha) as [Fa HA]; rewrite Ec20 in HA.
  destruct (quarter_bound (solarIntensity this) Hs) as [Fi HI].
  destruct (partition_error (solarIntensity this / 4) (albedo this) Fa HA Fi HI)
    as [Hf Hb].
  split; [apply finite_is_finite, Hf | exact Hb].
Qed.

Lemma snapshot_partition_error_witness :
  let snap := step_snapshot (M := RefMath.lib) 0.5 Examples.bright in
  is_finite (absorbed snap + reflected snap) = true /\
  (Rabs (F2R (absorbed snap + reflected snap) - F2R (incoming snap))
     <= bpow (-48) * (Rabs (F2R (incoming snap))
                      * (1 + Rabs (F2R (albedo Examples.bright))))
        + bpow (-1070))%R.
Proof.
  apply (snapshot_partition_error (M := RefMath.lib) Examples.bright 0.5);
    reflexivity.
Defined.

End Partition.

(** C10, as stated, fails: with solarIntensity = 1365 and albedo = 0.18,
    absorbed + reflected is not incoming. *)
Lemma snapshot_partition_counterexample :
  ~ (forall (M : MathLib) (this : ClimateModel) (dt : number),
       let snap := step_snapshot dt this in
       strict_eq (absorbed snap + reflected snap) (incoming snap) = true).
Proof.
  intros H.
  specialize (H RefMath.lib Examples.bright 0.5).
  discriminate H.
Qed.

(* ===================================================================== *)
(** * [ClimateGraphs]: the rolling window                                 *)
(* ===================================================================== *)

Section Window.

(** What one [update] does to the two arrays of the temperature chart. *)
Lemma update_state_eq stats g :
  update_state stats g =
  let t := timeLabel g + 1 in
  let labels := push (temp_labels g) t in
  let data := push (temp_data g) (temp stats) in
  if (Z.of_nat (length labels) >? maxPoints g)%Z
  then mkClimateGraphs (maxPoints g) t (shift labels) (shift data)
         [absorbed stats; outgoing stats]
  else mkClimateGraphs (maxPoints g) t labels data
         [absorbed stats; outgoing stats].
Proof.
  unfold update_state, update, execState, push; cbn.
  match goal with
  | |- context [(?a >? ?b)%Z] => destruct (a >? b)%Z
  end; reflexivity.
Qed.

Lemma length_push {A : Type} (l : list A) x : length (push l x) = S (length l).
Proof. unfold push; rewrite length_app; cbn; lia. Qed.

Lemma length_shift {A : Type} (l : list A) : length (shift l) = pred (length l).
Proof. destruct l; reflexivity. Qed.

Lemma shift_push {A : Type} (l : list A) x :
  l <> [] -> shift (push l x) = push (shift l) x.
Proof. destruct l; [congruence|reflexivity]. Qed.

Lemma update_window_ok n stats g :
  window_ok n g -> window_ok (S n) (update_state stats g).
Proof.
  intros (Hm & Hl & Hd); rewrite update_state_eq; cbv zeta.
  rewrite length_push, Hm, Hl.
  destruct (Z.gtb_spec (Z.of_nat (S (Nat.min n 50))) 50) as [H|H];
    unfold window_ok; cbn [maxPoints temp_labels temp_data];
    rewrite ?length_shift, !length_push, Hl, Hd; repeat split; lia.
Qed.

Lemma run_updates_snoc samples stats g :
  run_updates (samples ++ [stats]) g =
  update_state stats (run_updates samples g).
Proof. unfold run_updates; rewrite fold_left_app; reflexivity. Qed.

Lemma run_updates_window_ok samples :
  window_ok (length samples) (run_updates samples graphs_constructor).
Proof.
  induction samples as [|stats samples IH] using rev_ind.
  - repeat split.
  - rewrite run_updates_snoc, length_app, Nat.add_comm.
    apply update_window_ok, IH.
Qed.

End Window.

(** C9. The charting window is bounded: starting from the empty chart of
    the constructor, after any number of calls to [update] the label list
    and the data list of the temperature chart each hold at most 50
    entries (exactly min(calls, 50)); a further call appends the new label
    and sample, and removes the oldest entry of both lists exactly when
    they were already full. *)
Theorem chart_window_bounded (samples : list Snapshot) (stats : Snapshot) :
  let g := run_updates samples graphs_constructor in
  let g' := update_state stats g in
  (length (temp_labels g) <= 50)%nat /\
  (length (temp_data g) <= 50)%nat /\
  length (temp_labels g) = Nat.min (length samples) 50 /\
  length (temp_data g) = Nat.min (length samples) 50 /\
  temp_labels g' =
    (if (length samples <? 50)%nat
     then push (temp_labels g) (timeLabel g + 1)
     else push (shift (temp_labels g)) (timeLabel g + 1)) /\
  temp_data g' =
    (if (length samples <? 50)%nat
     then push (temp_data g) (temp stats)
     else push (shift (temp_data g)) (temp stats)).
Proof.
  intros g g'.
  destruct (run_updates_window_ok samples) as (Hm & Hl & Hd); fold g in Hm, Hl, Hd.
  repeat split; try lia.
  - unfold g'; rewrite update_state_eq; cbv zeta.
    rewrite length_push, Hm, Hl.
    destruct (Nat.ltb_spec (length samples) 50) as [H|H];
      destruct (Z.gtb_spec (Z.of_nat (S (Nat.min (length samples) 50))) 50) as [H'|H'];
      try lia; cbn [temp_labels]; trivial.
    apply shift_push; intros E; rewrite E in Hl; cbn in Hl; lia.
  - unfold g'; rewrite update_state_eq; cbv zeta.
    rewrite length_push, Hm, Hl.
    destruct (Nat.ltb_spec (length samples) 50) as [H|H];
      destruct (Z.gtb_spec (Z.of_nat (S (Nat.min (length samples) 50))) 50) as [H'|H'];
      try lia; cbn [temp_data]; trivial.
    apply shift_push; intros E; rewrite E in Hd; cbn in Hd; lia.
Qed.

(* ===================================================================== *)
(** * Further facts about binary64 arithmetic                             *)
(* ===================================================================== *)

Module MoreFloatFacts.

Lemma add_nan_r x : x + nan = nan.
Proof.
  apply Prim2SF_inj; rewrite add_spec, Prim2SF_nan.
  destruct (Prim2SF x); reflexivity.
Qed.

Lemma div_nan_l y : nan / y = nan.
Proof. apply Prim2SF_inj; rewrite div_spec; reflexivity. Qed.

(** [x - x] is a zero, or NaN when [x] is NaN or infinite. *)
Lemma SFsub_diag x :
  SF64sub x x = S754_nan \/ exists s, SF64sub x x = S754_zero s.
Proof.
  destruct x as [[]|[]| |s m e]; cbn; eauto.
  right; exists false.
  rewrite Z.min_id, Z.sub_diag; reflexivity.
Qed.

(** [Math.abs(x - x) > eps] is false for a positive [eps]. *)
Lemma abs_sub_diag_small eps x :
  (0 <? eps) = true -> (eps <? abs (x - x)) = false.
Proof.
  intros Heps; rewrite ltb_spec in *; rewrite abs_spec, sub_spec.
  destruct (SFsub_diag (Prim2SF x)) as [E|[s E]]; rewrite E; cbn.
  - destruct (Prim2SF eps) as [[]|[]| |[] m e]; reflexivity.
  - destruct (Prim2SF eps) as [[]|[]| |[] m e]; try reflexivity; discriminate.
Qed.

(** [Math.abs(x - y) > eps] is false as soon as [y] is NaN. *)
Lemma abs_sub_nan eps x : (eps <? abs (x - nan)) = false.
Proof.
  rewrite sub_nan_r; change (abs nan) with nan.
  rewrite ltb_spec, Prim2SF_nan.
  destruct (Prim2SF eps) as [[]|[]| |[] m e]; reflexivity.
Qed.

End MoreFloatFacts.
Import MoreFloatFacts.

(* ===================================================================== *)
(** * [EarthScene.updateState]: the ice caps                              *)
(* ===================================================================== *)

Section SceneFacts.

Context {T : ThreeLib}.

(** One call, with the branch on the throttle made explicit. *)
Lemma updateState_state_eq st this :
  updateState_state st this =
  let iceAngle := iceAngle_of (s_temp st) in
  let endPhi := Math_max 0.001 iceAngle in
  let co2Norm := (s_co2 st - 280) / (600 - 280) in
  let earth :=
    Color_lerp (Color_hex 0xffeedd) (Color_hex 0xddffdd) (s_forest st / 100) in
  let sky := Color_lerp (Color_hex 0x88ccff) (Color_hex 0xaabbcc) co2Norm in
  if 0.01 <? Math_abs (currentIceAngle this - iceAngle)
  then mkEarthScene iceAngle
         (mkSphereGeometry 1.001 64 64 0 (Math_PI * 2) 0 endPhi)
         (mkSphereGeometry 1.001 64 64 0 (Math_PI * 2) (Math_PI - endPhi) endPhi)
         earth (0.2 + co2Norm * 0.3) sky
  else mkEarthScene (currentIceAngle this) (iceNorth_geometry this)
         (iceSouth_geometry this) earth (0.2 + co2Norm * 0.3) sky.
Proof.
  unfold updateState_state, updateState, execState; cbn.
  match goal with
  | |- context [if ?c then _ else _] => destruct c
  end; reflexivity.
Qed.

Lemma iceAngle_of_nan temp : is_nan temp = true -> iceAngle_of temp = nan.
Proof. intros H; rewrite (is_nan_eq _ H); reflexivity. Qed.

(** The throttle lets no NaN through. *)
Lemma throttle_not_nan cur ice :
  (0.01 <? Math_abs (cur - ice)) = true -> is_nan ice = false.
Proof.
  intros H; destruct (is_nan ice) eqn:E; trivial.
  rewrite (is_nan_eq _ E) in H; unfold Math_abs in H.
  rewrite abs_sub_nan in H; discriminate.
Qed.

Lemma Math_max_0001 x :
  Math_max 0.001 x = if is_nan x then nan else if 0.001 <? x then x else 0.001.
Proof. apply Math_max_const; reflexivity. Qed.

Lemma Math_max_0001_lower x :
  is_nan x = false -> (0.001 <=? Math_max 0.001 x) = true.
Proof.
  intros H; rewrite Math_max_0001, H.
  destruct (0.001 <? x) eqn:E; [apply ltb_leb, E|reflexivity].
Qed.

Lemma caps_ok_constructor : caps_ok scene_constructor.
Proof. repeat split. Qed.

Lemma caps_ok_updateState st this :
  caps_ok this -> caps_ok (updateState_state st this).
Proof.
  intros Hok; rewrite updateState_state_eq; cbv zeta.
  destruct (0.01 <? Math_abs (currentIceAngle this - iceAngle_of (s_temp st)))
    eqn:Hthr.
  - pose proof (throttle_not_nan _ _ Hthr) as Hn.
    unfold caps_ok; cbn.
    repeat split; trivial.
    apply Math_max_0001_lower, Hn.
  - exact Hok.
Qed.

Lemma updateState_gap st this :
  (0.01 <? Math_abs (currentIceAngle (updateState_state st this) -
                     iceAngle_of (s_temp st))) = false.
Proof.
  rewrite updateState_state_eq; cbv zeta.
  destruct (0.01 <? Math_abs (currentIceAngle this - iceAngle_of (s_temp st)))
    eqn:Hthr; cbn [currentIceAngle].
  - apply abs_sub_diag_small; reflexivity.
  - exact Hthr.
Qed.

End SceneFacts.

(** X1. Whatever sequence of simulation states a new scene is fed, the
    ice caps stay well formed: the stored angle is never NaN, both caps
    are exactly [Math.max(0.001, angle)] wide (so never thinner than
    0.001), the northern cap starts at the pole and the southern one
    ends at the opposite pole. *)
Theorem ice_caps_well_formed {T : ThreeLib} (l : list SimulationState) :
  caps_ok (run_updateStates l scene_constructor).
Proof.
  induction l as [|st l IH] using rev_ind.
  - apply caps_ok_constructor.
  - unfold run_updateStates; rewrite fold_left_app; cbn [fold_left].
    apply caps_ok_updateState, IH.
Qed.

(** X2. After [updateState], the throttle test
    [Math.abs(currentIceAngle - iceAngle) > 0.01] is false for the angle
    the given temperature asks for: either the caps were rebuilt at that
    angle, or the gap was within 0.01 already (or the angle is NaN). *)
Theorem ice_angle_within_throttle {T : ThreeLib} (st : SimulationState)
  (this : EarthScene) :
  (0.01 <? Math_abs (currentIceAngle (updateState_state st this) -
                     iceAngle_of (s_temp st))) = false.
Proof. apply updateState_gap. Qed.

(** X3. [updateState] is idempotent: a second call with the same
    simulation state changes nothing. *)
Theorem updateState_idempotent {T : ThreeLib} (st : SimulationState)
  (this : EarthScene) :
  updateState_state st (updateState_state st this) = updateState_state st this.
Proof.
  rewrite (updateState_state_eq st (updateState_state st this)); cbv zeta.
  rewrite updateState_gap.
  rewrite updateState_state_eq; cbv zeta.
  destruct (0.01 <? Math_abs (currentIceAngle this - iceAngle_of (s_temp st)));
    reflexivity.
Qed.

(** X4. A NaN temperature never reaches the ice caps: [updateState]
    leaves the stored angle and both cap geometries as they were. *)
Theorem nan_temperature_keeps_caps {T : ThreeLib} (st : SimulationState)
  (this : EarthScene) :
  is_nan (s_temp st) = true ->
  currentIceAngle (updateState_state st this) = currentIceAngle this /\
  iceNorth_geometry (updateState_state st this) = iceNorth_geometry this /\
  iceSouth_geometry (updateState_state st this) = iceSouth_geometry this.
Proof.
  intros H; rewrite updateState_state_eq; cbv zeta.
  rewrite (iceAngle_of_nan _ H); unfold Math_abs; rewrite abs_sub_nan.
  repeat split.
Qed.

Lemma nan_temperature_keeps_caps_witness :
  currentIceAngle
    (updateState_state (T := RefThree.lib) (mkSimulationState nan 400 30)
       scene_constructor) = 0.4.
Proof.
  apply (nan_temperature_keeps_caps (T := RefThree.lib)
           (mkSimulationState nan 400 30) scene_constructor).
  reflexivity.
Defined.

(* ===================================================================== *)
(** * [ClimateModel]: how [updateParams] and [step] compose                *)
(* ===================================================================== *)

Section ModelFacts.

Context {M : MathLib}.
Variable StringToNumber : String.string -> number.

(** [updateParams], field by field. *)
Lemma updateParams_state_eq params this :
  updateParams_state StringToNumber params this =
  mkClimateModel
    (if is_defined (p_co2 params)
     then Number StringToNumber (p_co2 params) else co2 this)
    (if is_defined (p_albedo params)
     then Number StringToNumber (p_albedo params) else albedo this)
    (if is_defined (p_solar params)
     then Number StringToNumber (p_solar params) else solarIntensity this)
    (if is_defined (p_forest params)
     then Number StringToNumber (p_forest params) else forestCover this)
    (sigma this) (preIndustrialCO2 this) (temperature this)
    (targetTemperature this).
Proof.
  destruct params as [c a s f], this; unfold updateParams_state, updateParams;
    cbn [p_co2 p_albedo p_solar p_forest].
  destruct (is_defined c), (is_defined a), (is_defined s), (is_defined f);
    reflexivity.
Qed.

Lemma updateParams_merge p1 p2 this :
  updateParams_state StringToNumber p2
    (updateParams_state StringToNumber p1 this) =
  updateParams_state StringToNumber (merge_params p1 p2) this.
Proof.
  rewrite !updateParams_state_eq.
  destruct p1 as [c1 a1 s1 f1], p2 as [c2 a2 s2 f2]; cbn.
  f_equal.
  - destruct (is_defined c2) eqn:E2; [rewrite E2|]; reflexivity.
  - destruct (is_defined a2) eqn:E2; [rewrite E2|]; reflexivity.
  - destruct (is_defined s2) eqn:E2; [rewrite E2|]; reflexivity.
  - destruct (is_defined f2) eqn:E2; [rewrite E2|]; reflexivity.
Qed.

Lemma updateParams_temperature params this :
  temperature (updateParams_state StringToNumber params this) = temperature this.
Proof. rewrite updateParams_state_eq; reflexivity. Qed.

(** A NaN temperature survives every operation. *)
Lemma run_model_op_nan op this :
  is_nan (temperature this) = true ->
  is_nan (temperature (run_model_op StringToNumber this op)) = true.
Proof.
  intros H; destruct op as [params|dt]; cbn [run_model_op].
  - rewrite updateParams_temperature; exact H.
  - rewrite step_state_eq; cbn [temperature set_temperature].
    rewrite (is_nan_eq _ H), add_nan_l; reflexivity.
Qed.

Lemma run_model_ops_nan ops this :
  is_nan (temperature this) = true ->
  is_nan (temperature (run_model_ops StringToNumber ops this)) = true.
Proof.
  revert this; induction ops as [|op ops IH]; intros this H; trivial.
  cbn [run_model_ops fold_left]; apply IH, run_model_op_nan, H.
Qed.

(** A NaN net energy makes the next temperature NaN, whatever [dt]. *)
Lemma step_nan_net dt this :
  netEnergy_of this = nan -> temperature (step_state dt this) = nan.
Proof.
  intros H; rewrite step_state_eq; cbn [temperature set_temperature].
  unfold tempChange; rewrite H, div_nan_l, mul_nan_l; apply add_nan_r.
Qed.

Lemma net_nan_of_absorbed this :
  absorbedSolar this = nan -> netEnergy_of this = nan.
Proof. intros H; unfold netEnergy_of; rewrite H; apply sub_nan_l. Qed.

Lemma net_nan_of_solar this :
  is_nan (solarIntensity this) = true -> netEnergy_of this = nan.
Proof.
  intros H; apply net_nan_of_absorbed; unfold absorbedSolar, incomingSolar.
  rewrite (is_nan_eq _ H), div_nan_l; apply mul_nan_l.
Qed.

Lemma net_nan_of_albedo this :
  is_nan (albedo this) = true -> netEnergy_of this = nan.
Proof.
  intros H; apply net_nan_of_absorbed; unfold absorbedSolar.
  rewrite (is_nan_eq _ H), sub_nan_r; apply mul_nan_r.
Qed.

Lemma net_nan_of_co2 {HM : Conforming M} this :
  (0 <=? co2 this / preIndustrialCO2 this) = false -> netEnergy_of this = nan.
Proof.
  intros H; unfold netEnergy_of, outgoingRad.
  assert (E : emissivity this = nan).
  { apply emissivity_nan; unfold forcingCO2.
    rewrite (log_undefined _ H); apply mul_nan_r. }
  rewrite E, !mul_nan_l; apply sub_nan_r.
Qed.

End ModelFacts.

(** X5. Two [updateParams] calls in a row are one call with the merged
    record, where the properties of the second call win. In particular
    the call is idempotent, and the empty record changes nothing. *)
Theorem updateParams_composes (StringToNumber : String.string -> number)
  (p1 p2 : Params) (this : ClimateModel) :
  updateParams_state StringToNumber p2
    (updateParams_state StringToNumber p1 this) =
  updateParams_state StringToNumber (merge_params p1 p2) this /\
  updateParams_state StringToNumber p1
    (updateParams_state StringToNumber p1 this) =
  updateParams_state StringToNumber p1 this /\
  updateParams_state StringToNumber empty_params this = this.
Proof.
  split; [apply updateParams_merge|split].
  - rewrite updateParams_merge; f_equal.
    destruct p1 as [c a s f]; unfold merge_params; cbn [p_co2 p_albedo p_solar p_forest].
    destruct (is_defined c), (is_defined a), (is_defined s), (is_defined f);
      reflexivity.
  - rewrite updateParams_state_eq; destruct this; reflexivity.
Qed.

(** X6. Once the temperature is NaN it stays NaN: no sequence of
    [updateParams] and [step] calls brings a number back. *)
Theorem nan_temperature_is_permanent {M : MathLib}
  (StringToNumber : String.string -> number)
  (ops : list model_op) (this : ClimateModel) :
  is_nan (temperature this) = true ->
  is_nan (temperature (run_model_ops StringToNumber ops this)) = true.
Proof. apply run_model_ops_nan. Qed.

Lemma nan_temperature_is_permanent_witness :
  is_nan
    (temperature
       (run_model_ops (M := RefMath.lib) (fun _ => 0)
          [OpStep 0.5; OpUpdateParams (preset_params "modern"%string); OpStep 0.5]
          (set_temperature nan constructor))) = true.
Proof.
  apply (nan_temperature_is_permanent (M := RefMath.lib)).
  reflexivity.
Defined.

(** X7. One [step] with a parameter that is not a usable number ruins
    the temperature for good: if solarIntensity or albedo is NaN, or
    co2/preIndustrialCO2 is negative or NaN, then after [step(dt)], for
    any [dt], the temperature is NaN, and it is still NaN after any
    further [updateParams] and [step] calls, repaired parameters
    included. *)
Theorem bad_parameter_poisons_temperature {M : MathLib} {HM : Conforming M}
  (StringToNumber : String.string -> number)
  (this : ClimateModel) (dt : number) (ops : list model_op) :
  is_nan (solarIntensity this) = true \/
  is_nan (albedo this) = true \/
  (0 <=? co2 this / preIndustrialCO2 this) = false ->
  is_nan
    (temperature (run_model_ops StringToNumber ops (step_state dt this))) = true.
Proof.
  intros H; apply run_model_ops_nan.
  rewrite step_nan_net; [reflexivity|].
  destruct H as [H|[H|H]].
  - apply net_nan_of_solar, H.
  - apply net_nan_of_albedo, H.
  - apply net_nan_of_co2, H.
Qed.

Lemma bad_parameter_poisons_temperature_witness :
  is_nan
    (temperature
       (run_model_ops (M := RefMath.lib) (fun _ => 0)
          [OpUpdateParams (preset_params "modern"%string); OpStep 0.5]
          (step_state (M := RefMath.lib) 0.5 Examples.negative_co2))) = true.
Proof.
  apply (bad_parameter_poisons_temperature (HM := reference_conforming)).
  right; right; reflexivity.
Defined.

(* ===================================================================== *)
(** * [ClimateGraphs]: what the window holds                              *)
(* ===================================================================== *)

Section WindowContents.

Lemma skipn_succ_tl {A : Type} (k : nat) (l : list A) :
  skipn (S k) l = tl (skipn k l).
Proof.
  revert l; induction k as [|k IH]; intros [|x l]; try reflexivity.
  cbn [skipn] in *; apply IH.
Qed.

(** Dropping all but the last 50 of [l ++ [x]], from the same of [l]. *)
Lemma window_snoc {A : Type} (l : list A) (x : A) :
  skipn (S (length l) - 50) (l ++ [x]) =
  if (length l <? 50)%nat
  then push (skipn (length l - 50) l) x
  else push (shift (skipn (length l - 50) l)) x.
Proof.
  unfold push, shift.
  destruct (Nat.ltb_spec (length l) 50) as [H|H].
  - replace (S (length l) - 50)%nat with 0%nat by lia.
    replace (length l - 50)%nat with 0%nat by lia.
    reflexivity.
  - replace (S (length l) - 50)%nat with (S (length l - 50)) by lia.
    rewrite skipn_app, skipn_succ_tl.
    replace (S (length l - 50) - length l)%nat with 0%nat by lia.
    reflexivity.
Qed.

(** The arrays of the temperature chart after one more [update], on a
    window that holds what [n] updates from the constructor left. *)
Lemma update_window_arrays n stats g :
  window_ok n g ->
  temp_labels (update_state stats g) =
    (if (n <? 50)%nat
     then push (temp_labels g) (timeLabel g + 1)
     else push (shift (temp_labels g)) (timeLabel g + 1)) /\
  temp_data (update_state stats g) =
    (if (n <? 50)%nat
     then push (temp_data g) (temp stats)
     else push (shift (temp_data g)) (temp stats)) /\
  timeLabel (update_state stats g) = timeLabel g + 1.
Proof.
  intros (Hm & Hl & Hd); rewrite update_state_eq; cbv zeta.
  rewrite length_push, Hm, Hl.
  destruct (Nat.ltb_spec n 50) as [H|H];
    destruct (Z.gtb_spec (Z.of_nat (S (Nat.min n 50))) 50) as [H'|H'];
    try lia; cbn [temp_labels temp_data timeLabel]; repeat split.
  - apply shift_push; intros E; rewrite E in Hl; cbn in Hl; lia.
  - apply shift_push; intros E; rewrite E in Hd; cbn in Hd; lia.
Qed.

Lemma run_updates_contents samples :
  let g := run_updates samples graphs_constructor in
  let n := length samples in
  temp_data g = skipn (n - 50) (map temp samples) /\
  temp_labels g = skipn (n - 50) (map tick_label (seq 1 n)) /\
  timeLabel g = tick_label n.
Proof.
  induction samples as [|stats samples IH] using rev_ind.
  - repeat split.
  - cbv zeta in *; destruct IH as (Hd & Hl & Ht).
    rewrite run_updates_snoc.
    destruct (update_window_arrays _ stats _ (run_updates_window_ok samples))
      as (El & Ed & Et).
    rewrite El, Ed, Et, Hd, Hl, Ht.
    rewrite length_app, Nat.add_comm; cbn [length Nat.add].
    rewrite map_app, seq_S, map_app; cbn [map Nat.add].
    repeat split.
    + pose proof (window_snoc (map temp samples) (temp stats)) as W.
      rewrite length_map in W; rewrite W; reflexivity.
    + pose proof (window_snoc (map tick_label (seq 1 (length samples)))
                    (tick_label (S (length samples)))) as W.
      rewrite length_map, length_seq in W; rewrite W; reflexivity.
Qed.


End WindowContents.

(** X8. The temperature chart shows the most recent samples, oldest
    first: after [update] was called once per element of [samples] on a
    new chart, its data are the temperatures of the last 50 samples (all
    of them when there are fewer), its labels the call numbers of those
    same samples, and [timeLabel] the number of calls. *)
Theorem chart_shows_last_samples (samples : list Snapshot) :
  let g := run_updates samples graphs_constructor in
  let n := length samples in
  temp_data g = skipn (n - 50) (map temp samples) /\
  temp_labels g = skipn (n - 50) (map tick_label (seq 1 n)) /\
  timeLabel g = tick_label n.
Proof. apply run_updates_contents. Qed.


(* ===================================================================== *)
(** * [App]: sliders, presets and the timer                               *)
(* ===================================================================== *)

Section AppFacts.

Context {M : MathLib} {T : ThreeLib}.
Variable StringToNumber : String.string -> number.

Lemma tick_eq (app : App) :
  tick app =
  {| model := step_state 0.5 (model app);
     scene :=
       updateState_state
         {| s_temp := temperature (step_state 0.5 (model app));
            s_co2 := co2 (model app);
            s_forest := forestCover (model app) |}
         (scene app);
     graphs := update_state (step_snapshot 0.5 (model app)) (graphs app) |}.
Proof. reflexivity. Qed.

(** A key that names none of the four parameters builds a record that
    [updateParams] finds empty. *)
Lemma params_of_key_unknown key v :
  key <> "co2"%string -> key <> "albedo"%string ->
  key <> "solar"%string -> key <> "forest"%string ->
  params_of_key key v = empty_params.
Proof.
  intros H1 H2 H3 H4; unfold params_of_key.
  apply String.eqb_neq in H1, H2, H3, H4.
  rewrite H1, H2, H3, H4; reflexivity.
Qed.

Lemma updateParams_empty this :
  updateParams_state StringToNumber empty_params this = this.
Proof. rewrite updateParams_state_eq; destruct this; reflexivity. Qed.

(** Two records built for different keys merge the same way in either
    order. *)
Lemma merge_params_of_keys k1 v1 k2 v2 :
  k1 <> k2 ->
  merge_params (params_of_key k1 v1) (params_of_key k2 v2) =
  merge_params (params_of_key k2 v2) (params_of_key k1 v1).
Proof.
  intros Hk; unfold merge_params, params_of_key;
    cbn [p_co2 p_albedo p_solar p_forest].
  f_equal;
    match goal with
    | |- context [String.eqb k1 ?f] =>
        destruct (String.eqb_spec k1 f) as [E1|E1];
        destruct (String.eqb_spec k2 f) as [E2|E2];
        try congruence; try reflexivity;
        destruct v1; destruct v2; reflexivity
    end.
Qed.

(** A preset with all four properties replaces whatever record came
    before it. *)
Lemma merge_params_full p c a s f :
  merge_params p (mkParams (VNumber c) (VNumber a) (VNumber s) (VNumber f)) =
  mkParams (VNumber c) (VNumber a) (VNumber s) (VNumber f).
Proof. reflexivity. Qed.

Lemma preset_overrides name p this :
  known_preset name ->
  updateParams_state StringToNumber (preset_params name)
    (updateParams_state StringToNumber p this) =
  updateParams_state StringToNumber (preset_params name) this.
Proof.
  intros [-> | [-> | ->]]; rewrite updateParams_merge;
    rewrite !updateParams_state_eq; reflexivity.
Qed.

(** ** The invariant of a running [App] *)

Lemma last_push {A : Type} (l : list A) x d : last (push l x) d = x.
Proof. apply last_last. Qed.

Lemma app_ok_constructor : app_ok 0 app_constructor.
Proof.
  repeat split.
Qed.

Lemma app_ok_update n params app :
  app_ok n app ->
  app_ok n {| model := updateParams_state StringToNumber params (model app);
              scene := scene app; graphs := graphs app |}.
Proof.
  intros (Hc & Hw & Hl & Ht & Hs); unfold app_ok; cbn [model scene graphs].
  rewrite updateParams_temperature.
  split; [apply (updateParams_constants _ _ _ Hc)|].
  split; [exact Hw|]; split; [exact Hl|]; split; [exact Ht|exact Hs].
Qed.

Lemma app_ok_tick n app : app_ok n app -> app_ok (S n) (tick app).
Proof.
  intros (Hc & Hw & Hl & Ht & Hs); rewrite tick_eq; unfold app_ok;
    cbn [model scene graphs].
  destruct (update_window_arrays n (step_snapshot 0.5 (model app)) _ Hw)
    as (_ & Ed & Et).
  split; [exact Hc|].
  split; [apply update_window_ok, Hw|].
  split; [|split].
  - rewrite Ed; destruct (n <? 50)%nat; rewrite last_push; reflexivity.
  - rewrite Et, Ht; reflexivity.
  - apply caps_ok_updateState, Hs.
Qed.

Lemma app_ok_events evs :
  app_ok (length (filter is_tick evs))
    (run_events StringToNumber evs app_constructor).
Proof.
  induction evs as [|ev evs IH] using rev_ind.
  - apply app_ok_constructor.
  - unfold run_events; rewrite fold_left_app, filter_app, length_app.
    cbn [fold_left]; fold (run_events StringToNumber evs app_constructor).
    destruct ev as [|key v|name]; cbn [filter is_tick length run_event].
    + rewrite Nat.add_comm; apply app_ok_tick, IH.
    + rewrite Nat.add_0_r; apply app_ok_update, IH.
    + rewrite Nat.add_0_r; apply app_ok_update, IH.
Qed.




End AppFacts.

Lemma params_of_key_undefined key :
  params_of_key key VUndefined = empty_params.
Proof.
  unfold params_of_key.
  destruct (String.eqb key "co2"), (String.eqb key "albedo"),
    (String.eqb key "solar"), (String.eqb key "forest"); reflexivity.
Qed.

Lemma preset_params_unknown name :
  ~ known_preset name -> preset_params name = empty_params.
Proof.
  unfold known_preset, preset_params; intros H.
  destruct (String.eqb_spec name "pre-industrial"); [tauto|].
  destruct (String.eqb_spec name "modern"); [tauto|].
  destruct (String.eqb_spec name "extreme"); [tauto|reflexivity].
Qed.

Section AppFacts2.

Context {M : MathLib} {T : ThreeLib}.
Variable StringToNumber : String.string -> number.

Lemma app_eta (app : App) :
  {| model := model app; scene := scene app; graphs := graphs app |} = app.
Proof. destruct app; reflexivity. Qed.

Lemma handleInput_commute k1 v1 k2 v2 app :
  k1 <> k2 ->
  handleInput StringToNumber k1 v1 (handleInput StringToNumber k2 v2 app) =
  handleInput StringToNumber k2 v2 (handleInput StringToNumber k1 v1 app).
Proof.
  intros Hk; unfold handleInput; cbn [model scene graphs].
  rewrite !updateParams_merge, (merge_params_of_keys k1 v1 k2 v2 Hk).
  reflexivity.
Qed.

(** Slider inputs and presets reach the model only. *)
Lemma run_events_no_tick evs app :
  existsb is_tick evs = false ->
  exists p,
    run_events StringToNumber evs app =
    {| model := updateParams_state StringToNumber p (model app);
       scene := scene app; graphs := graphs app |}.
Proof.
  revert app; induction evs as [|ev evs IH]; intros app H.
  - exists empty_params; rewrite updateParams_empty, app_eta; reflexivity.
  - cbn [existsb] in H; apply orb_false_iff in H; destruct H as [Hev H].
    change (run_events StringToNumber (ev :: evs) app)
      with (run_events StringToNumber evs (run_event StringToNumber app ev)).
    destruct (IH (run_event StringToNumber app ev) H) as [p Hp]; rewrite Hp.
    destruct ev as [|key v|name]; [discriminate| |];
      cbn [run_event handleInput loadPreset model scene graphs];
      rewrite updateParams_merge; eexists; reflexivity.
Qed.

End AppFacts2.

(** X10. Slider inputs for different parameters commute: the order in
    which two different sliders were last moved does not matter to the
    application state. *)
Theorem slider_inputs_commute {T : ThreeLib}
  (StringToNumber : String.string -> number)
  (k1 k2 : String.string) (v1 v2 : value) (app : App) :
  k1 <> k2 ->
  handleInput StringToNumber k1 v1 (handleInput StringToNumber k2 v2 app) =
  handleInput StringToNumber k2 v2 (handleInput StringToNumber k1 v1 app).
Proof. apply handleInput_commute. Qed.

Lemma slider_inputs_commute_witness :
  let app := app_constructor (T := RefThree.lib) in
  handleInput (fun _ => 1) "co2"%string (VNumber 500)
    (handleInput (fun _ => 1) "albedo"%string (VString "0.4"%string) app) =
  handleInput (fun _ => 1) "albedo"%string (VString "0.4"%string)
    (handleInput (fun _ => 1) "co2"%string (VNumber 500) app).
Proof.
  apply (slider_inputs_commute (T := RefThree.lib)).
  discriminate.
Defined.

(** X11. [updateParams({ [key]: value })], the call [handleInput] makes,
    leaves the model as it is when the key names none of co2, albedo,
    solar and forest, or when the value is [undefined]. *)
Theorem updateParams_ignores_unknown
  (StringToNumber : String.string -> number)
  (key : String.string) (v : value) (this : ClimateModel) :
  v = VUndefined \/
  (key <> "co2"%string /\ key <> "albedo"%string /\
   key <> "solar"%string /\ key <> "forest"%string) ->
  updateParams_state StringToNumber (params_of_key key v) this = this.
Proof.
  intros H.
  assert (E : params_of_key key v = empty_params).
  { destruct H as [->|(H1 & H2 & H3 & H4)].
    - apply params_of_key_undefined.
    - apply params_of_key_unknown; trivial. }
  rewrite E; apply updateParams_empty.
Qed.

Lemma updateParams_ignores_unknown_witness :
  updateParams_state (fun _ => 1)
    (params_of_key "temperature"%string (VNumber 99)) constructor =
  constructor.
Proof.
  apply (updateParams_ignores_unknown (fun _ => 1)).
  right; repeat split; discriminate.
Defined.

(** X12. [loadPreset] with a name other than pre-industrial, modern and
    extreme leaves the application state as it is. *)
Theorem loadPreset_ignores_unknown {T : ThreeLib}
  (StringToNumber : String.string -> number)
  (name : String.string) (app : App) :
  ~ known_preset name ->
  loadPreset StringToNumber name app = app.
Proof.
  intros H; unfold loadPreset.
  rewrite (preset_params_unknown name H), updateParams_empty; apply app_eta.
Qed.

Lemma loadPreset_ignores_unknown_witness :
  let app := app_constructor (T := RefThree.lib) in
  loadPreset (fun _ => 1) "Modern"%string app = app.
Proof.
  apply (loadPreset_ignores_unknown (T := RefThree.lib)).
  intros [H|[H|H]]; discriminate H.
Defined.

(** X13. A known preset overrides every slider input and preset that
    came since the last tick: loading it after them gives the same
    application state as loading it at once. *)
Theorem preset_overrides_inputs {M : MathLib} {T : ThreeLib}
  (StringToNumber : String.string -> number)
  (name : String.string) (evs : list app_event) (app : App) :
  known_preset name -> existsb is_tick evs = false ->
  loadPreset StringToNumber name (run_events StringToNumber evs app) =
  loadPreset StringToNumber name app.
Proof.
  intros Hn Hevs.
  destruct (run_events_no_tick StringToNumber evs app Hevs) as [p Hp].
  rewrite Hp; unfold loadPreset; cbn [model scene graphs].
  rewrite (preset_overrides StringToNumber name p _ Hn); reflexivity.
Qed.

Lemma preset_overrides_inputs_witness :
  let app := app_constructor (T := RefThree.lib) in
  loadPreset (fun _ => 1) "extreme"%string
    (run_events (M := RefMath.lib) (fun _ => 1)
       [EvInput "co2"%string (VString "500"%string);
        EvPreset "modern"%string] app) =
  loadPreset (fun _ => 1) "extreme"%string app.
Proof.
  apply (preset_overrides_inputs (M := RefMath.lib) (T := RefThree.lib)).
  - right; right; reflexivity.
  - reflexivity.
Defined.

(** X14. Whatever happened to the application before, loading the
    pre-industrial preset brings the CO2 forcing to exactly [+0] and the
    emissivity to its base value 0.61: the preset's 280 ppm is the
    model's own preIndustrialCO2. *)
Theorem pre_industrial_preset_zero_forcing {M : MathLib} {HM : Conforming M}
  {T : ThreeLib} (StringToNumber : String.string -> number)
  (evs : list app_event) :
  let app :=
    loadPreset StringToNumber "pre-industrial"%string
      (run_events StringToNumber evs app_constructor) in
  forcingCO2 (model app) = 0 /\ emissivity (model app) = 0.61.
Proof.
  cbv zeta.
  destruct (app_ok_events StringToNumber evs) as ([_ Hp] & _).
  assert (F : forcingCO2
                (model (loadPreset StringToNumber "pre-industrial"%string
                   (run_events StringToNumber evs app_constructor))) = 0).
  { unfold loadPreset, forcingCO2; cbn [model].
    rewrite updateParams_state_eq; cbn; rewrite Hp.
    change (280 / 280) with 1; rewrite log_one; reflexivity. }
  split; [exact F|].
  unfold emissivity, emissivity0; rewrite F; reflexivity.
Qed.

Lemma pre_industrial_preset_zero_forcing_witness :
  forcingCO2 (M := RefMath.lib)
    (model
       (loadPreset (T := RefThree.lib) (fun _ => 1) "pre-industrial"%string
          (run_events (M := RefMath.lib) (fun _ => 1)
             [EvTick; EvInput "co2"%string (VNumber 900); EvTick]
             app_constructor))) = 0.
Proof.
  apply (pre_industrial_preset_zero_forcing (HM := reference_conforming)
           (T := RefThree.lib) (fun _ => 1)
           [EvTick; EvInput "co2"%string (VNumber 900); EvTick]).
Defined.

(** X15. The chart follows the model: after any sequence of ticks,
    slider inputs and presets on a new application, the newest point of
    the temperature chart is the model's current temperature (with no
    tick yet the chart is empty and the temperature is the initial 15),
    the chart holds min(ticks, 50) labels and points, and [timeLabel]
    counts the ticks. *)
Theorem chart_follows_model {M : MathLib} {T : ThreeLib}
  (StringToNumber : String.string -> number) (evs : list app_event) :
  let app := run_events StringToNumber evs app_constructor in
  let n := length (filter is_tick evs) in
  last (temp_data (graphs app)) 15 = temperature (model app) /\
  length (temp_data (graphs app)) = Nat.min n 50 /\
  length (temp_labels (graphs app)) = Nat.min n 50 /\
  timeLabel (graphs app) = tick_label n.
Proof.
  cbv zeta.
  destruct (app_ok_events StringToNumber evs)
    as (_ & (_ & Hl & Hd) & Hlast & Ht & _).
  repeat split; trivial.
Qed.


(** The ice angle of a temperature that is a number is finite: the
    middle branch stays below 4 in magnitude. *)
Module IceAngle.

Import Reals Lra.
Import Exact ExactFacts.









End IceAngle.



(** The exception is real: a negative co2 makes the temperature NaN at
    the next tick, the gap is NaN and the stored angle stays at 0.4. *)
Example globe_nan_example :
  let app :=
    run_events (M := RefMath.lib) (T := RefThree.lib) (fun _ => 1)
      [EvInput "co2"%string (VNumber (-1)); EvTick] app_constructor in
  is_nan (temperature (model app)) = true /\
  is_nan (Math_abs (currentIceAngle (scene app) -
                    iceAngle_of (temperature (model app)))) = true /\
  currentIceAngle (scene app) = 0.4.
Proof. vm_compute; repeat split. Qed.
